(** * The visit-counter server of Lab 2 ([src/index.js])

    A shallow embedding of the Node.js program: the connection
    options it builds from [process.env], the [GET /] handler that
    increments the cache key [visits], and the start-up sequence.

    The program is written against three libraries (express, pg,
    redis) and two external stores.  The program's own text is
    embedded definition by definition; what the libraries and the
    stores do is kept in separate modules ([Js], [Runtime],
    [Express]), each stating the rule of the library it stands for. *)

From Stdlib Require Import ZArith Lia Ascii.
From stdpp Require Import base strings gmap list pretty.

Local Open Scope Z_scope.

(* ===================================================================== *)
(** ** JavaScript values used by the program *)
(* ===================================================================== *)

Module Js.

(** [process.env.NAME]: a string when the variable is in the
    environment, [undefined] ([None]) when it is not. *)
Definition getenv (env : gmap string string) (name : string) : option string :=
  env !! name.

(** ToBoolean on [string | undefined]: [undefined] and the empty
    string are falsy, every other string is truthy. *)
Definition truthy (v : option string) : bool :=
  match v with
  | None => false
  | Some EmptyString => false
  | Some (String _ _) => true
  end.

(** [v || d] with a string default: the left operand when it is
    truthy, the right one otherwise. *)
Definition or_else (v : option string) (d : string) : string :=
  match v with
  | Some s => if truthy v then s else d
  | None => d
  end.

(** A number of JavaScript is a double.  [round_double a] is the
    integer the double nearest to the natural number [a] is worth:
    [a] itself while it fits in 53 bits, and otherwise [a] with its
    low bits rounded away, ties going to the even side. *)
Definition round_double (a : Z) : Z :=
  let e := Z.log2 a - 52 in
  if e <=? 0 then a
  else
    let q := a / 2 ^ e in
    let r := a mod 2 ^ e in
    let half := 2 ^ (e - 1) in
    let up := (half <? r) || ((r =? half) && Z.odd q) in
    (if up then q + 1 else q) * 2 ^ e.

(** The redis client reads an integer reply one digit at a time into
    a number, [number = number * 10 + byte - 48], where [byte] is the
    character code of the digit, 48 for [0]: a multiplication, an
    addition and a subtraction of doubles, each of them rounded. *)
Definition read_digit (number d : Z) : Z :=
  round_double (round_double (round_double (number * 10) + (48 + d)) - 48).

(** The digits of [n] read from the left: those of [n / 10] first,
    then the last one.  The fuel bounds the number of digits. *)
Fixpoint read_digits (fuel : nat) (n : Z) : Z :=
  match fuel with
  | O => 0
  | S fuel' =>
      if n <? 10 then read_digit 0 n
      else read_digit (read_digits fuel' (n / 10)) (n mod 10)
  end.

(** The number the client hands over for the reply [:n], [n] a
    natural number. *)
Definition number_of_reply (n : Z) : Z :=
  read_digits (S (Z.to_nat (Z.log2 n))) n.

(** Number::toString looks for the fewest digits that still denote
    the double [x].  With the digits cut at the power of ten [p], the
    two multiples of [p] around [x] are tried; of those that round to
    [x] the nearer one is taken, and the even one on a tie. *)
Definition candidate (x p : Z) : option Z :=
  let lo := x / p * p in
  let hi := if x mod p =? 0 then lo else lo + p in
  match round_double lo =? x, round_double hi =? x with
  | true, true =>
      if x - lo <? hi - x then Some lo
      else if hi - x <? x - lo then Some hi
      else if Z.even (x / p) then Some lo else Some hi
  | true, false => Some lo
  | false, true => Some hi
  | false, false => None
  end.

(** The number shown for the double [x]: the first success from the
    power of ten [10^j] downwards, that is, with the fewest digits. *)
Fixpoint shortest (x : Z) (j : nat) : Z :=
  let p := 10 ^ Z.of_nat j in
  match (if p <=? x then candidate x p else None), j with
  | Some y, _ => y
  | None, O => x
  | None, S j' => shortest x j'
  end.

Fixpoint strip_zeros (fuel : nat) (y : Z) : Z :=
  match fuel with
  | O => y
  | S fuel' =>
      if (0 <? y) && (y mod 10 =? 0) then strip_zeros fuel' (y / 10) else y
  end.

(** The notation for a number of more than 21 digits: [d.ddde+n]. *)
Definition exponent_form (y : Z) : string :=
  let e := pretty (Z.of_nat (String.length (pretty y)) - 1) in
  match pretty (strip_zeros 400 y) with
  | String d EmptyString => String d ("e+" +:+ e)
  | String d rest => String d ("." +:+ rest +:+ "e+" +:+ e)
  | EmptyString => EmptyString
  end.

(** A double beyond the largest finite one prints as [Infinity]; a
    number of at most 21 digits prints as these digits. *)
Definition show_positive (a : Z) : string :=
  let x := round_double a in
  if 2 ^ 1024 <=? x then "Infinity"
  else
    let y := shortest x (String.length (pretty x)) in
    if y <? 10 ^ 21 then pretty y else exponent_form y.

(** [`${n}`] where [n] is the number the client makes of an integer
    reply: the digits of the reply are read into a double, the sign
    is put back, and the double is printed by Number::toString. *)
Definition to_string (n : Z) : string :=
  match n with
  | Z0 => "0"
  | Zpos _ => show_positive (number_of_reply n)
  | Zneg _ => "-" +:+ show_positive (number_of_reply (- n))
  end.

End Js.

(* ===================================================================== *)
(** ** Connection options (index.js, lines 7-12 and 16-18) *)
(* ===================================================================== *)

Module Config.

(** The object literal passed to [new Client({...})]. *)
Record pg_options := PgOptions {
  host : string;
  user : string;
  password : string;
  database : string
}.

(** The object literal passed to [redis.createClient({...})]. *)
Record redis_options := RedisOptions {
  url : string
}.

Definition pgOptions (env : gmap string string) : pg_options :=
  {| host := Js.or_else (Js.getenv env "DB_HOST") "db";
     user := Js.or_else (Js.getenv env "DB_USER") "postgres";
     password := Js.or_else (Js.getenv env "DB_PASSWORD") "password";
     database := Js.or_else (Js.getenv env "DB_NAME") "postgres" |}.

Definition redisOptions (env : gmap string string) : redis_options :=
  {| url := "redis://cache:6379" |}.

End Config.


(* ===================================================================== *)
(** ** The external stores and the effects the program can perform *)
(* ===================================================================== *)

Module Runtime.

(** Reasons for which a call of the program can throw or reject. *)
Inductive error :=
| CommandRefused        (* the store answered with an error reply *)
| HeadersAlreadySent.   (* res.send on a response that was sent *)

(** How a promise settles ([await] yields the value or throws). *)
Inductive settled (A : Type) :=
| Fulfilled (a : A)
| Rejected (e : error).
Global Arguments Fulfilled {A} a.
Global Arguments Rejected {A} e.

(** Commands the cache store can receive from its clients. *)
Inductive redis_cmd :=
| INCR (key : string)
| GET (key : string)
| SET (key : string) (value : Z)
| DEL (key : string).

(** The state outside the process: the cache store and the
    relational store, both reached over connections that stand.
    [cache_accepts] tells whether the cache executes the commands it
    receives or answers them with an error reply.  The logs keep every
    command and statement a store has executed, oldest first, so that
    reads are visible too. *)
Record world := World {
  cache_accepts : bool;
  keyspace : gmap string Z;
  cache_log : list redis_cmd;
  db_log : list string
}.

(** A cache that was just started and accepts commands, and a
    database nobody talked to. *)
Definition fresh_world : world :=
  {| cache_accepts := true; keyspace := ∅; cache_log := []; db_log := [] |}.

Definition with_keyspace (ks : gmap string Z) (w : world) : world :=
  {| cache_accepts := cache_accepts w; keyspace := ks;
     cache_log := cache_log w; db_log := db_log w |}.

Definition with_cache_accepts (b : bool) (w : world) : world :=
  {| cache_accepts := b; keyspace := keyspace w;
     cache_log := cache_log w; db_log := db_log w |}.

Definition logged (c : redis_cmd) (w : world) : world :=
  {| cache_accepts := cache_accepts w; keyspace := keyspace w;
     cache_log := cache_log w ++ [c]; db_log := db_log w |}.

Definition db_logged (sql : string) (w : world) : world :=
  {| cache_accepts := cache_accepts w; keyspace := keyspace w;
     cache_log := cache_log w; db_log := db_log w ++ [sql] |}.

(** Modelled from the spec: the cache store's increment, which is not
    code of this program.  A key that is absent counts as 0; the
    command adds one, stores the sum and returns it, in one step.
    Counters are unbounded here; the store's own 64-bit limit is left
    out. *)
Definition store_incr (key : string) (w : world) : Z * world :=
  let v := default 0 (keyspace w !! key) + 1 in
  (v, logged (INCR key) (with_keyspace (<[key := v]> (keyspace w)) w)).

(** The response object [res] of one request.  express creates it
    with status code 200 and no content type, and knows whether the
    request was a HEAD request; [sent] holds the body that went out
    once [res.send] was called. *)
Record response := Response {
  head_only : bool;
  statusCode : Z;
  contentType : option string;
  sent : option string
}.

Definition new_response (head : bool) : response :=
  {| head_only := head; statusCode := 200; contentType := None;
     sent := None |}.

(** The response object of a request that is not a HEAD request. *)
Definition fresh_response : response := new_response false.

(** [res.send] of a string: the content type, when the handler has
    set none, becomes that of an HTML page; the string goes out as
    the body, except to a HEAD request, which gets the head alone. *)
Definition send (body : string) (res : response) : response :=
  {| head_only := head_only res;
     statusCode := statusCode res;
     contentType :=
       Some (default "text/html; charset=utf-8" (contentType res));
     sent := Some (if head_only res then EmptyString else body) |}.

(** The calls a piece of request-handling code can make on the two
    clients and on [res], indexed by the type of what they yield. *)
Inductive effect : Type -> Type :=
| RedisIncr (key : string) : effect Z
| RedisGet (key : string) : effect (option Z)
| RedisSet (key : string) (value : Z) : effect unit
| RedisDel (key : string) : effect unit
| PgQuery (sql : string) : effect unit
| ResSend (body : string) : effect unit.

(** A cache command is executed while the store accepts commands;
    otherwise the store answers with an error, the client's promise
    rejects and nothing changes. *)
Definition on_cache {X : Type} (w : world) (res : response)
    (f : world -> X * world) : settled X * world * response :=
  if cache_accepts w
  then let '(x, w') := f w in (Fulfilled x, w', res)
  else (Rejected CommandRefused, w, res).

(** One call, run on the stores and the response object. *)
Definition perform {X : Type} (e : effect X) (w : world) (res : response)
    : settled X * world * response :=
  match e in effect T return settled T * world * response with
  | RedisIncr key => on_cache w res (store_incr key)
  | RedisGet key =>
      on_cache w res (fun w => (keyspace w !! key, logged (GET key) w))
  | RedisSet key v =>
      on_cache w res (fun w =>
        (tt, logged (SET key v) (with_keyspace (<[key := v]> (keyspace w)) w)))
  | RedisDel key =>
      on_cache w res (fun w =>
        (tt, logged (DEL key) (with_keyspace (delete key (keyspace w)) w)))
  | PgQuery sql => (Fulfilled tt, db_logged sql w, res)
  | ResSend body =>
      match sent res with
      | Some _ => (Rejected HeadersAlreadySent, w, res)
      | None => (Fulfilled tt, w, send body res)
      end
  end.

(** The body of an [async] function: a value, or a call followed by
    the rest of the body, which receives what the call yields. *)
Inductive prog (A : Type) : Type :=
| Ret (a : A)
| Vis {X : Type} (e : effect X) (k : X -> prog A).
Global Arguments Ret {A} a.
Global Arguments Vis {A X} e k.

Fixpoint bind {A B : Type} (p : prog A) (f : A -> prog B) : prog B :=
  match p with
  | Ret a => f a
  | Vis e k => Vis e (fun x => bind (k x) f)
  end.

Definition call {X : Type} (e : effect X) : prog X := Vis e Ret.

(** Running a body to its end with nothing else in between. A call
    that rejects ends the body: an [async] function without
    [try]/[catch] rejects with the error of the call. *)
Fixpoint run {A : Type} (p : prog A) (w : world) (res : response)
    : settled A * world * response :=
  match p with
  | Ret a => (Fulfilled a, w, res)
  | Vis e k =>
      match perform e w res with
      | (Fulfilled x, w', res') => run (k x) w' res'
      | (Rejected err, w', res') => (Rejected err, w', res')
      end
  end.

End Runtime.
Import Runtime.

Global Instance prog_ret : MRet prog := @Ret.
Global Instance prog_bind : MBind prog := fun A B f p => bind p f.

(* ===================================================================== *)
(** ** The routing of express, as far as this program uses it *)
(* ===================================================================== *)

Module Express.

Inductive method := GET | HEAD | POST | PUT | DELETE | PATCH | OPTIONS.

Global Instance method_eq_dec : EqDecision method.
Proof. solve_decision. Defined.

(** What the router looks at: the method and the path name (the URL
    without its query string). *)
Record request := Request {
  req_method : method;
  req_path : string
}.

(** A route made by [app.METHOD(path, handler)]. *)
Record route := Route {
  route_method : method;
  route_path : string;
  route_handler : request -> prog unit
}.

(** Rule of express's Router: a route answers the method it was
    registered for, and a route registered for GET also answers HEAD
    when it has no HEAD handler of its own. *)
Definition handles_method (r : route) (m : method) : bool :=
  match m with
  | HEAD => bool_decide (route_method r = HEAD)
            || bool_decide (route_method r = GET)
  | _ => bool_decide (route_method r = m)
  end.

Definition lower_ascii (c : ascii) : ascii :=
  let n := nat_of_ascii c in
  if (65 <=? n)%nat && (n <=? 90)%nat then ascii_of_nat (n + 32) else c.

Fixpoint lower (s : string) : string :=
  match s with
  | EmptyString => EmptyString
  | String c rest => String (lower_ascii c) (lower rest)
  end.

(** Rule of express 5 for a route path that is a plain string: it
    matches the path name itself and the path name followed by one
    more [/], letters compared without regard to case. *)
Definition path_matches (pattern path : string) : bool :=
  bool_decide (lower path = lower pattern)
  || bool_decide (lower path = lower pattern +:+ "/").

Definition matches (r : route) (req : request) : bool :=
  path_matches (route_path r) (req_path req)
  && handles_method r (req_method req).

(** The first matching route in registration order, if any. *)
Fixpoint find_route (routes : list route) (req : request) : option route :=
  match routes with
  | [] => None
  | r :: rest => if matches r req then Some r else find_route rest req
  end.

(** Serving one request in a process that is alive, with nothing
    else in between.  [None] is the framework's own answer when no
    route matches; otherwise the handler runs on a new response
    object, and the result is how the handler's promise settled
    together with that object. *)
Definition serve (routes : list route) (req : request) (w : world)
    : option (settled unit * response) * world :=
  match find_route routes req with
  | None => (None, w)
  | Some r =>
      let '(o, w', res) :=
        run (route_handler r req) w
            (new_response (bool_decide (req_method req = HEAD))) in
      (Some (o, res), w')
  end.

(** Requests served one after the other, each finished before the
    next one starts. *)
Fixpoint serve_all (routes : list route) (reqs : list request) (w : world)
    : list (option (settled unit * response)) * world :=
  match reqs with
  | [] => ([], w)
  | req :: rest =>
      let '(a, w') := serve routes req w in
      let '(answers, w'') := serve_all routes rest w' in
      (a :: answers, w'')
  end.

End Express.
Import Express.

(* ===================================================================== *)
(** ** The program (index.js) *)
(* ===================================================================== *)

Module App.

(** Lines 21-24: the handler given to [app.get]. It does not look
    at [req]. *)
Definition handler (req : request) : prog unit :=
  visits ← call (RedisIncr "visits");
  call (ResSend ("Hello 🚀 Visits: " +:+ Js.to_string visits)).

(** State of a client's connection promise. *)
Inductive conn := NotStarted | Connecting | Connected | ConnectFailed.

Inductive client := PgClient | RedisClient.

(** Calls of the top level that reach outside the process. *)
Inductive action :=
| ConnectPg (options : Config.pg_options)
| ConnectRedis (options : Config.redis_options)
| Listen (port : Z).

(** What the top level of the module builds up. [issued] keeps the
    outside calls in the order they were made; [alive] tells whether
    the process still runs. *)
Record process := Process {
  alive : bool;
  pg_conn : conn;
  redis_conn : conn;
  routes : list route;
  listening : option Z;
  console : list string;
  issued : list action
}.

(** [express()] and two clients that were not asked to connect yet. *)
Definition boot : process :=
  {| alive := true; pg_conn := NotStarted; redis_conn := NotStarted; routes := [];
     listening := None; console := []; issued := [] |}.

(** [pgClient.connect()] as a statement: the attempt starts, the
    promise it returns is dropped. *)
Definition pg_connect (options : Config.pg_options) (p : process) : process :=
  {| alive := alive p;
     pg_conn := Connecting; redis_conn := redis_conn p; routes := routes p;
     listening := listening p; console := console p;
     issued := issued p ++ [ConnectPg options] |}.

(** [redisClient.connect()] as a statement, likewise. *)
Definition redis_connect (options : Config.redis_options) (p : process) : process :=
  {| alive := alive p;
     pg_conn := pg_conn p; redis_conn := Connecting; routes := routes p;
     listening := listening p; console := console p;
     issued := issued p ++ [ConnectRedis options] |}.

(** [app.get(path, h)]: one more route, after those already there. *)
Definition app_get (path : string) (h : request -> prog unit) (p : process) : process :=
  {| alive := alive p; pg_conn := pg_conn p; redis_conn := redis_conn p;
     routes := routes p ++ [Route GET path h];
     listening := listening p; console := console p; issued := issued p |}.

(** [app.listen(port, () => console.log(line))]: the server listens
    and the callback prints its line. *)
Definition app_listen (port : Z) (line : string) (p : process) : process :=
  {| alive := alive p;
     pg_conn := pg_conn p; redis_conn := redis_conn p; routes := routes p;
     listening := Some port; console := console p ++ [line];
     issued := issued p ++ [Listen port] |}.

(** The top level of index.js, statement by statement. *)
Definition main (env : gmap string string) : process :=
  let p := boot in
  let p := pg_connect (Config.pgOptions env) p in
  let p := redis_connect (Config.redisOptions env) p in
  let p := app_get "/" handler p in
  app_listen 3000 "Server running on port 3000" p.






End App.
Import App.

(* ===================================================================== *)
(** ** Requests in flight at the same time *)
(* ===================================================================== *)

Module Server.

(** What an observer sees of one step of one request. *)
Inductive event :=
| Arrived (req : request)
| Incremented (key : string) (v : Z)
| Sent (body : string)
| Failed (e : error)
| Other.

Definition observe {X : Type} (e : effect X) : settled X -> event :=
  match e in effect T return settled T -> event with
  | RedisIncr key => fun o =>
      match o with Fulfilled v => Incremented key v | Rejected err => Failed err end
  | ResSend body => fun o =>
      match o with Fulfilled _ => Sent body | Rejected err => Failed err end
  | RedisGet _ => fun o =>
      match o with Fulfilled _ => Other | Rejected err => Failed err end
  | RedisSet _ _ | RedisDel _ | PgQuery _ => fun o =>
      match o with Fulfilled _ => Other | Rejected err => Failed err end
  end.

(** A request whose handler has started and not finished: the rest of
    the handler's body, which begins with the call it waits for, and
    the request's response object. *)
Record task := Task {
  task_body : prog unit;
  task_res : response
}.

(** The process and what is around it: whether the process runs,
    the stores, the requests in flight and what has happened so
    far. *)
Record state := State {
  running : bool;
  world_of : world;
  tasks : gmap nat task;
  history : list (nat * event)
}.

(** What can happen next. [Resume r] lets request [r] make the call
    its body begins with; the call happens in one step.  A cache
    command is one step because the store executes it in one step;
    the step after it is the handler going on with the reply.  The
    cache may start to refuse commands and to accept them again.  A
    connection to a store may break: neither client has an [error]
    listener, so the error is thrown and the process ends. *)
Inductive move :=
| Arrive (r : nat) (req : request)
| Resume (r : nat)
| CacheRefuses
| CacheAccepts
| ConnectionLost (c : client).

(** Keep a request whose body has a call left, drop one that is done. *)
Definition park (r : nat) (body : prog unit) (res : response)
    (ts : gmap nat task) : gmap nat task :=
  match body with
  | Ret _ => delete r ts
  | Vis _ _ => <[r := Task body res]> ts
  end.

(** In a process that runs: a request arrives, or goes on. *)
Definition serve_step (rs : list route) (m : move) (s : state)
    : option state :=
  match m with
  | Arrive r req =>
      if bool_decide (r ∈ (history s).*1) then None
      else
        let ts :=
          match find_route rs req with
          | None => tasks s
          | Some rt =>
              park r (route_handler rt req)
                   (new_response (bool_decide (req_method req = HEAD)))
                   (tasks s)
          end in
        Some (State true (world_of s) ts (history s ++ [(r, Arrived req)]))
  | Resume r =>
      match tasks s !! r with
      | Some (Task (Vis e k) res) =>
          let '(o, w', res') := perform e (world_of s) res in
          let ts :=
            match o with
            | Fulfilled x => park r (k x) res' (tasks s)
            | Rejected _ => delete r (tasks s)
            end in
          Some (State true w' ts (history s ++ [(r, observe e o)]))
      | _ => None
      end
  | _ => None
  end.

(** One step.  Once the process has ended no request arrives or goes
    on: those in flight stay where they were, without a response. *)
Definition step (rs : list route) (m : move) (s : state) : option state :=
  match m with
  | Arrive _ _ | Resume _ => if running s then serve_step rs m s else None
  | CacheRefuses =>
      Some (State (running s) (with_cache_accepts false (world_of s))
                  (tasks s) (history s))
  | CacheAccepts =>
      Some (State (running s) (with_cache_accepts true (world_of s))
                  (tasks s) (history s))
  | ConnectionLost _ =>
      Some (State false (world_of s) (tasks s) (history s))
  end.

(** A whole execution: the moves in the order they happen. [None]
    when some move is not possible where it stands. *)
Fixpoint exec (rs : list route) (ms : list move) (s : state) : option state :=
  match ms with
  | [] => Some s
  | m :: rest =>
      match step rs m s with
      | Some s' => exec rs rest s'
      | None => None
      end
  end.

(** The server right after start-up, both connections made, in front
    of a new cache. *)
Definition init : state :=
  {| running := true; world_of := fresh_world; tasks := ∅; history := [] |}.

(** The increments that were completed, oldest first: the request
    and the value the store returned to it. *)
Definition incrs (h : list (nat * event)) : list (nat * Z) :=
  omap (fun '(r, ev) =>
          match ev with Incremented _ v => Some (r, v) | _ => None end) h.

(** The responses that were sent, oldest first. *)
Definition sends (h : list (nat * event)) : list (nat * string) :=
  omap (fun '(r, ev) =>
          match ev with Sent body => Some (r, body) | _ => None end) h.

End Server.
Import Server.

(* ===================================================================== *)
(** ** The words of the specification *)
(* ===================================================================== *)

(** The decimal rendering of an integer. *)
Definition decimal (n : Z) : string := pretty n.

(** The body the handler builds for the reply [n] of the store. *)
Definition visits_body (n : Z) : string :=
  "Hello 🚀 Visits: " +:+ Js.to_string n.

Definition is_digit (c : ascii) : bool :=
  (48 <=? nat_of_ascii c)%nat && (nat_of_ascii c <=? 57)%nat.

Fixpoint all_digits (s : string) : bool :=
  match s with
  | EmptyString => true
  | String c rest => is_digit c && all_digits rest
  end.

(** An integer in decimal: one digit or more, after a minus sign or
    after nothing. *)
Definition is_integer (s : string) : bool :=
  match s with
  | EmptyString => false
  | String c rest =>
      if bool_decide (c = "-"%char)
      then negb (bool_decide (rest = EmptyString)) && all_digits rest
      else all_digits s
  end.

Fixpoint strip_prefix (p s : string) : option string :=
  match p, s with
  | EmptyString, _ => Some s
  | String a p', String b s' =>
      if bool_decide (a = b) then strip_prefix p' s' else None
  | String _ _, EmptyString => None
  end.

(** The literal pattern [Hello 🚀 Visits: <integer>]. *)
Definition matches_pattern (s : string) : bool :=
  match strip_prefix "Hello 🚀 Visits: " s with
  | Some rest => is_integer rest
  | None => false
  end.

(** A request for [GET /]. *)
Definition get_root : request := {| req_method := GET; req_path := "/" |}.

(** The answer to a GET request that was handled with counter value
    [n]. *)
Definition ok_answer (n : Z) : option (settled unit * response) :=
  Some (Fulfilled tt,
        {| head_only := false; statusCode := 200;
           contentType := Some "text/html; charset=utf-8";
           sent := Some (visits_body n) |}).

(** The two places where a request of this program can wait: for the
    reply to its increment, and, with the reply [v] in hand, for its
    turn to send the response. *)
Definition waiting : prog unit := handler get_root.

Definition replying (v : Z) : prog unit := call (ResSend (visits_body v)).

(** What holds of the server at every moment of every execution. *)
Record coherent (s : state) : Prop := Coherent {
  coh_counter :
    default 0 (keyspace (world_of s) !! "visits")
    = Z.of_nat (length (incrs (history s)));
  coh_values :
    (incrs (history s)).*2
    = seqZ 1 (Z.of_nat (length (incrs (history s))));
  coh_key : ∀ r key v,
    (r, Incremented key v) ∈ history s → key = "visits";
  coh_incr_once : NoDup (incrs (history s)).*1;
  coh_send_once : NoDup (sends (history s)).*1;
  coh_tasks : ∀ r t,
    tasks s !! r = Some t →
    r ∈ (history s).*1
    ∧ (r ∉ (sends (history s)).*1)
    ∧ sent (task_res t) = None
    ∧ ((task_body t = waiting ∧ (r ∉ (incrs (history s)).*1))
       ∨ (∃ v, task_body t = replying v ∧ (r, v) ∈ incrs (history s)));
  coh_sends : ∀ r body,
    (r, body) ∈ sends (history s) →
    ∃ v, (r, v) ∈ incrs (history s) ∧ body = visits_body v;
  coh_incrs : ∀ r v,
    (r, v) ∈ incrs (history s) →
    (r, visits_body v) ∈ sends (history s)
    ∨ (∃ t, tasks s !! r = Some t ∧ task_body t = replying v)
}.

(** What a request's body is about to send, if that is its next call. *)
Definition next_body (p : prog unit) : option string :=
  match p with
  | Vis e _ => match e with ResSend body => Some body | _ => None end
  | Ret _ => None
  end.

(** Two requests, the second of which overtakes the first at the
    cache and is answered last. *)
Definition overtaking : list move :=
  [Arrive 0 get_root; Arrive 1 get_root; Resume 1; Resume 0; Resume 0;
   Resume 1].

(** Concrete environments and requests used as examples below. *)
Definition env_db_host : gmap string string :=
  {[ "DB_HOST" := "localhost" ]}.

Definition env_empty_password : gmap string string :=
  {[ "DB_PASSWORD" := EmptyString ]}.

Definition env_redis_url : gmap string string :=
  {[ "REDIS_URL" := "redis://other:6379" ]}.

Definition head_root : request := {| req_method := HEAD; req_path := "/" |}.

Definition post_root : request := {| req_method := POST; req_path := "/" |}.

Definition refusing_world : world := with_cache_accepts false fresh_world.

(** The environment the compose file of the lab gives the [app]
    service. *)
Definition env_compose : gmap string string :=
  {[ "NODE_ENV" := "development";
     "DATABASE_URL" := "postgresql://postgres:password@db:5432/postgres";
     "REDIS_URL" := "redis://cache:6379" ]}.

Definition slash_root : request := {| req_method := GET; req_path := "//" |}.

(** A cache whose counter stands at [c]. *)
Definition world_at (c : Z) : world :=
  with_keyspace {[ "visits" := c ]} fresh_world.

(** The requests that reach the handler: those for [/] or [//] whose
    method is GET or HEAD. *)
Definition counted (req : request) : bool :=
  (bool_decide (req_path req = "/") || bool_decide (req_path req = "//"))
  && (bool_decide (req_method req = GET)
      || bool_decide (req_method req = HEAD)).

(** How many requests of a list reach the handler. *)
Definition visits_in (reqs : list request) : nat :=
  length (List.filter counted reqs).

Definition is_head (req : request) : bool :=
  bool_decide (req_method req = HEAD).

(** What a request that reached the handler is answered when the
    counter reaches [n]: the body of [n], or no body for HEAD. *)
Definition reply_to (req : request) (n : Z) : settled unit * response :=
  (Fulfilled tt,
   {| head_only := is_head req; statusCode := 200;
      contentType := Some "text/html; charset=utf-8";
      sent := Some (if is_head req then EmptyString else visits_body n) |}).

(** What a request gets while the cache refuses commands. *)
Definition refused_answer (req : request)
    : option (settled unit * response) :=
  if counted req
  then Some (Rejected CommandRefused, new_response (is_head req))
  else None.

Definition mixed_requests : list request :=
  [get_root; post_root; head_root; {| req_method := GET; req_path := "/x" |};
   slash_root].


(** The stores hold nothing but the counter and have executed nothing
    but its increments. *)
Definition only_incremented (s : state) : Prop :=
  cache_log (world_of s)
  = replicate (length (incrs (history s))) (INCR "visits")
  ∧ db_log (world_of s) = []
  ∧ ∀ key, key ≠ "visits" → keyspace (world_of s) !! key = None.

Definition is_resume (m : move) : Prop :=
  match m with Resume _ => True | _ => False end.

(** Two requests have arrived and one of them has its reply. *)
Definition midway : list move :=
  [Arrive 0 get_root; Arrive 1 get_root; Resume 1].

(* ===================================================================== *)
(** ** Connection options *)
(* ===================================================================== *)

Section Options.

Variable env : gmap string string.

Lemma or_else_unset (d : string) : Js.or_else None d = d.
Proof. reflexivity. Qed.

Lemma or_else_empty (d : string) : Js.or_else (Some EmptyString) d = d.
Proof. reflexivity. Qed.

Lemma or_else_set (v d : string) :
  v ≠ EmptyString → Js.or_else (Some v) d = v.
Proof. destruct v; [congruence | reflexivity]. Qed.

(** The shape every parameter of the relational client has. *)
Lemma or_else_getenv (name d : string) :
  (env !! name = None → Js.or_else (Js.getenv env name) d = d)
  ∧ (env !! name = Some EmptyString → Js.or_else (Js.getenv env name) d = d)
  ∧ (∀ v, env !! name = Some v → v ≠ EmptyString →
          Js.or_else (Js.getenv env name) d = v).
Proof.
  unfold Js.getenv. repeat split.
  - intros ->. apply or_else_unset.
  - intros ->. apply or_else_empty.
  - intros v -> Hv. by apply or_else_set.
Qed.

End Options.

(** C9, as amended: without the DB_* variables the relational client
    gets host [db], user [postgres], password [password] and database
    [postgres]; a variable that is set to a string that is not empty
    gives the parameter its value; a variable that is set to the empty
    string leaves the default in place. *)
Theorem pg_options_of_env (env : gmap string string) :
  let o := Config.pgOptions env in
  ((env !! "DB_HOST" = None → Config.host o = "db")
   ∧ (env !! "DB_HOST" = Some EmptyString → Config.host o = "db")
   ∧ (∀ v, env !! "DB_HOST" = Some v → v ≠ EmptyString → Config.host o = v))
  ∧ ((env !! "DB_USER" = None → Config.user o = "postgres")
   ∧ (env !! "DB_USER" = Some EmptyString → Config.user o = "postgres")
   ∧ (∀ v, env !! "DB_USER" = Some v → v ≠ EmptyString → Config.user o = v))
  ∧ ((env !! "DB_PASSWORD" = None → Config.password o = "password")
   ∧ (env !! "DB_PASSWORD" = Some EmptyString → Config.password o = "password")
   ∧ (∀ v, env !! "DB_PASSWORD" = Some v → v ≠ EmptyString →
           Config.password o = v))
  ∧ ((env !! "DB_NAME" = None → Config.database o = "postgres")
   ∧ (env !! "DB_NAME" = Some EmptyString → Config.database o = "postgres")
   ∧ (∀ v, env !! "DB_NAME" = Some v → v ≠ EmptyString →
           Config.database o = v)).
Proof.
  cbn. repeat apply conj; try apply (or_else_getenv env);
    intros v; apply (or_else_getenv env).
Qed.

Lemma pg_options_of_env_witness :
  Config.pgOptions ∅ = Config.PgOptions "db" "postgres" "password" "postgres"
  ∧ Config.host (Config.pgOptions env_db_host) = "localhost".
Proof.
  split.
  - destruct (pg_options_of_env ∅) as ([Hh _] & [Hu _] & [Hp _] & [Hd _]).
    specialize (Hh eq_refl). specialize (Hu eq_refl).
    specialize (Hp eq_refl). specialize (Hd eq_refl).
    destruct (Config.pgOptions ∅). cbn in *. congruence.
  - destruct (pg_options_of_env env_db_host) as ((_ & _ & Hh) & _).
    apply Hh; [vm_compute; reflexivity | discriminate].
Defined.

(** C9 as it was written fails: DB_PASSWORD is set, to the empty
    string, and the password used is not that value. *)
Lemma pg_password_empty_not_used :
  env_empty_password !! "DB_PASSWORD" = Some EmptyString
  ∧ Config.password (Config.pgOptions env_empty_password) = "password"
  ∧ ¬ (∀ (env : gmap string string) (v : string),
         env !! "DB_PASSWORD" = Some v →
         Config.password (Config.pgOptions env) = v).
Proof.
  assert (Hset : env_empty_password !! "DB_PASSWORD" = Some EmptyString)
    by (vm_compute; reflexivity).
  assert (Hused : Config.password (Config.pgOptions env_empty_password)
                  = "password") by (vm_compute; reflexivity).
  repeat split; try done.
  intros Hall. specialize (Hall _ _ Hset). rewrite Hused in Hall. discriminate.
Qed.

(** C10: the cache client's URL is [redis://cache:6379] in every
    environment; two environments never give different cache
    options. *)
Theorem redis_url_constant (env env' : gmap string string) :
  Config.url (Config.redisOptions env) = "redis://cache:6379"
  ∧ Config.redisOptions env = Config.redisOptions env'.
Proof. split; reflexivity. Qed.

(** C4, as amended: the four parameters of the relational client take
    the value of DB_HOST, DB_USER, DB_PASSWORD and DB_NAME when the
    variable is set to a string that is not empty; the cache client's
    URL is fixed and no variable of the environment changes it. *)
Theorem connection_overrides (env : gmap string string) (name v : string) :
  v ≠ EmptyString →
  env !! name = Some v →
  (name = "DB_HOST" → Config.host (Config.pgOptions env) = v)
  ∧ (name = "DB_USER" → Config.user (Config.pgOptions env) = v)
  ∧ (name = "DB_PASSWORD" → Config.password (Config.pgOptions env) = v)
  ∧ (name = "DB_NAME" → Config.database (Config.pgOptions env) = v)
  ∧ Config.url (Config.redisOptions env) = "redis://cache:6379".
Proof.
  intros Hv Hset.
  repeat split; try (intros ->; cbn; by apply (or_else_getenv env)).
Qed.

Lemma connection_overrides_witness :
  Config.host (Config.pgOptions env_db_host) = "localhost".
Proof.
  refine (proj1 (connection_overrides env_db_host "DB_HOST" "localhost" _ _)
            eq_refl).
  - discriminate.
  - vm_compute; reflexivity.
Defined.

(** C4 as it was written fails for the cache: with REDIS_URL set the
    URL used is still the constant, and no variable name at all acts
    as a URL override. *)
Lemma redis_url_not_overridable :
  env_redis_url !! "REDIS_URL" = Some "redis://other:6379"
  ∧ Config.url (Config.redisOptions env_redis_url) ≠ "redis://other:6379"
  ∧ ¬ (∃ name : string, ∀ (env : gmap string string) (v : string),
         env !! name = Some v → Config.url (Config.redisOptions env) = v).
Proof.
  split; [vm_compute; reflexivity |]. split; [discriminate |].
  intros [name Hall].
  specialize (Hall {[ name := "redis://other:6379" ]} "redis://other:6379"
                (lookup_singleton_eq _ _)).
  discriminate.
Qed.

(* ===================================================================== *)
(** ** The text of the response *)
(* ===================================================================== *)

Lemma pretty_N_char_is_digit (x : N) : is_digit (pretty_N_char x) = true.
Proof. unfold pretty_N_char. by repeat case_match. Qed.

Lemma pretty_N_go_digits (x : N) (s : string) :
  all_digits s = true → all_digits (pretty_N_go x s) = true.
Proof.
  revert s. induction (N.lt_wf_0 x) as [x _ IH]. intros s Hs.
  destruct (decide (x = 0%N)) as [-> | Hx].
  - by rewrite pretty_N_go_0.
  - rewrite pretty_N_go_step by lia. apply IH.
    + apply N.div_lt; lia.
    + cbn. by rewrite pretty_N_char_is_digit, Hs.
Qed.

Lemma pretty_N_go_length (x : N) (s : string) :
  (String.length s ≤ String.length (pretty_N_go x s))%nat.
Proof.
  revert s. induction (N.lt_wf_0 x) as [x _ IH]. intros s.
  destruct (decide (x = 0%N)) as [-> | Hx].
  - by rewrite pretty_N_go_0.
  - rewrite pretty_N_go_step by lia.
    etrans; [| apply IH; apply N.div_lt; lia]. cbn. lia.
Qed.

(** The decimal text of a positive number: digits, and at least one. *)
Lemma pretty_positive_digits (p : positive) :
  all_digits (pretty p) = true ∧ pretty p ≠ EmptyString.
Proof.
  unfold pretty, pretty_positive, pretty, pretty_N.
  rewrite decide_False by done. split.
  - by apply pretty_N_go_digits.
  - rewrite pretty_N_go_step by lia.
    intros Heq.
    pose proof (pretty_N_go_length (N.pos p `div` 10)
      (String (pretty_N_char (N.pos p `mod` 10)) EmptyString)) as Hlen.
    rewrite Heq in Hlen. cbn in Hlen. lia.
Qed.

Lemma digits_is_integer (s : string) :
  all_digits s = true → s ≠ EmptyString → is_integer s = true.
Proof.
  destruct s as [| c rest]; [done |]. intros Hd _. unfold is_integer.
  case_bool_decide as Hc; [| done].
  subst c. cbn in Hd. discriminate.
Qed.

(** The decimal rendering of an integer is an integer in decimal. *)
Lemma decimal_is_integer (n : Z) : is_integer (decimal n) = true.
Proof.
  unfold decimal, pretty, pretty_Z. destruct n as [| p | p].
  - reflexivity.
  - by apply digits_is_integer; apply pretty_positive_digits.
  - destruct (pretty_positive_digits p) as [Hd Hne].
    change ("-" +:+ pretty p) with (String "-" (pretty p)).
    unfold is_integer. rewrite bool_decide_true by done.
    rewrite Hd, bool_decide_false by done. reflexivity.
Qed.

Lemma round_double_safe (a : Z) : 0 ≤ a ≤ 2 ^ 53 → Js.round_double a = a.
Proof.
  intros Ha. destruct (decide (a = 2 ^ 53)) as [-> | Hne]; [reflexivity |].
  unfold Js.round_double.
  destruct (decide (a = 0)) as [-> | Hpos]; [reflexivity |].
  assert (Z.log2 a < 53) by (apply Z.log2_lt_pow2; lia).
  by rewrite (proj2 (Z.leb_le _ _)) by lia.
Qed.

(** Where the rounding can land: between the integer without its low
    bits and the next multiple. *)
Lemma round_double_big (a : Z) :
  2 ^ 53 ≤ a →
  let e := Z.log2 a - 52 in
  1 ≤ e ∧ 2 ^ 52 ≤ a / 2 ^ e < 2 ^ 53
  ∧ a / 2 ^ e * 2 ^ e ≤ Js.round_double a ≤ (a / 2 ^ e + 1) * 2 ^ e
  ∧ (a mod 2 ^ e = 0 → Js.round_double a = a).
Proof.
  intros Ha e.
  assert (Hl : 53 <= Z.log2 a) by (apply Z.log2_le_pow2; lia).
  assert (He : 1 <= e) by (unfold e; lia).
  destruct (Z.log2_spec a) as [Hlo Hhi]; [lia |].
  assert (HP : 0 < 2 ^ e) by (apply Z.pow_pos_nonneg; lia).
  assert (Hlo' : 2 ^ 52 * 2 ^ e <= a).
  { rewrite <- Z.pow_add_r by lia. by replace (52 + e) with (Z.log2 a) by (unfold e; lia). }
  assert (Hhi' : a < 2 ^ 53 * 2 ^ e).
  { rewrite <- Z.pow_add_r by lia. by replace (53 + e) with (Z.succ (Z.log2 a)) by (unfold e; lia). }
  assert (Hq : 2 ^ 52 <= a / 2 ^ e < 2 ^ 53).
  { split; [apply Z.div_le_lower_bound; lia | apply Z.div_lt_upper_bound; lia]. }
  split; [done |]. split; [done |].
  unfold Js.round_double. fold e. rewrite (proj2 (Z.leb_gt _ _)) by lia.
  cbv zeta. split.
  - destruct (_ || _); nia.
  - intros Hr. rewrite Hr.
    assert (0 < 2 ^ (e - 1)) by (apply Z.pow_pos_nonneg; lia).
    rewrite (proj2 (Z.ltb_ge _ _)) by lia.
    rewrite (proj2 (Z.eqb_neq _ _)) by lia. cbn.
    pose proof (Z.div_mod a (2 ^ e)). lia.
Qed.

Lemma pow2_ge_2 (e : Z) : 1 ≤ e → 2 ≤ 2 ^ e.
Proof. intros He. change 2 with (2 ^ 1) at 1. apply Z.pow_le_mono_r; lia. Qed.

Lemma round_double_le_double (a : Z) : 0 < a → 0 < Js.round_double a ≤ 2 * a.
Proof.
  intros Ha. destruct (decide (a <= 2 ^ 53)) as [Hs | Hb].
  - rewrite round_double_safe by lia. lia.
  - destruct (round_double_big a) as (He & Hq & Hr & _); [lia |].
    pose proof (pow2_ge_2 _ He) as HP.
    pose proof (Z.mul_div_le a (2 ^ (Z.log2 a - 52))). nia.
Qed.

Lemma round_double_to_safe (x y : Z) :
  0 ≤ y → 0 < x ≤ 2 ^ 53 → Js.round_double y = x →
  y = x ∨ (x = 2 ^ 53 ∧ y = 2 ^ 53 + 1).
Proof.
  intros Hy Hx Hr. destruct (decide (y <= 2 ^ 53)) as [Hs | Hb].
  - left. by rewrite round_double_safe in Hr by lia.
  - right. destruct (round_double_big y) as (He & Hq & Hb' & _); [lia |].
    pose proof (pow2_ge_2 _ He) as HP.
    set (P := 2 ^ (Z.log2 y - 52)) in *.
    pose proof (Z.mul_div_le y P). pose proof (Z.mul_succ_div_gt y P).
    assert (P = 2) by nia. nia.
Qed.

Lemma candidate_spec (x p y : Z) :
  0 < p ≤ x → Js.candidate x p = Some y →
  Js.round_double y = x ∧ 0 < y ≤ x + p
  ∧ (y = x / p * p ∨ (y = x / p * p + p ∧ x mod p ≠ 0)).
Proof.
  intros Hp. unfold Js.candidate.
  pose proof (Z.mul_div_le x p). pose proof (Z.mul_succ_div_gt x p).
  assert (1 <= x / p) by (apply Z.div_le_lower_bound; lia).
  assert (Hlo : 0 < x / p * p <= x) by nia.
  destruct (x mod p =? 0) eqn:Hm.
  - destruct (Js.round_double (x / p * p) =? x) eqn:Hr; cbn;
      repeat case_match; intros [= <-]; apply Z.eqb_eq in Hr;
      (split; [done |]); (split; [lia |]); by left.
  - apply Z.eqb_neq in Hm.
    destruct (Js.round_double (x / p * p) =? x) eqn:Hr1;
      destruct (Js.round_double (x / p * p + p) =? x) eqn:Hr2;
      repeat case_match; intros [= <-];
      try apply Z.eqb_eq in Hr1; try apply Z.eqb_eq in Hr2;
      (split; [done |]); (split; [lia |]); auto.
Qed.

Lemma shortest_safe (x : Z) (j : nat) : 0 < x ≤ 2 ^ 53 → Js.shortest x j = x.
Proof.
  intros Hx. induction j as [| j IH].
  - cbn [Js.shortest]. change (10 ^ Z.of_nat 0) with 1.
    destruct (1 <=? x) eqn:H1; [| done].
    destruct (Js.candidate x 1) as [y |] eqn:Hc; [| done].
    apply candidate_spec in Hc as (Hr & Hy & Hshape); [| lia].
    destruct (round_double_to_safe x y) as [-> | [Hx' Hy']]; [lia | lia | done | done |].
    rewrite Z.mod_1_r, Z.div_1_r in Hshape. lia.
  - cbn [Js.shortest].
    destruct (10 ^ Z.of_nat (S j) <=? x) eqn:Hle; [| done].
    destruct (Js.candidate x _) as [y |] eqn:Hc; [| done].
    apply Z.leb_le in Hle.
    assert (Hp : 10 ^ Z.of_nat (S j) = 10 * 10 ^ Z.of_nat j)
      by (rewrite Nat2Z.inj_succ, Z.pow_succ_r; lia).
    assert (0 < 10 ^ Z.of_nat j) by (apply Z.pow_pos_nonneg; lia).
    apply candidate_spec in Hc as (Hr & Hy & Hshape); [| lia].
    destruct (round_double_to_safe x y) as [-> | [Hx' Hy']]; [lia | lia | done | done |].
    exfalso. rewrite Hp in Hshape.
    set (k := 10 ^ Z.of_nat j) in *. set (m := x / (10 * k)) in *.
    change (2 ^ 53) with 9007199254740992 in *. lia.
Qed.

Lemma shortest_le_double (x : Z) (j : nat) :
  0 < x → 0 < Js.shortest x j ≤ 2 * x.
Proof.
  intros Hx. induction j as [| j IH]; cbn [Js.shortest].
  - destruct (_ <=? x) eqn:Hle; [| lia].
    destruct (Js.candidate x _) as [y |] eqn:Hc; [| lia].
    apply Z.leb_le in Hle. apply candidate_spec in Hc; lia.
  - destruct (_ <=? x) eqn:Hle; [| done].
    destruct (Js.candidate x _) as [y |] eqn:Hc; [| done].
    apply Z.leb_le in Hle.
    assert (0 < 10 ^ Z.of_nat (S j)) by (apply Z.pow_pos_nonneg; lia).
    apply candidate_spec in Hc; lia.
Qed.

Lemma show_positive_safe (a : Z) : 0 < a ≤ 2 ^ 53 → Js.show_positive a = pretty a.
Proof.
  intros Ha. unfold Js.show_positive. rewrite round_double_safe by lia.
  rewrite shortest_safe by done.
  rewrite (proj2 (Z.leb_gt _ _)), (proj2 (Z.ltb_lt _ _)); [done | |].
  - change (10 ^ 21) with 1000000000000000000000.
    change (2 ^ 53) with 9007199254740992 in Ha. lia.
  - apply Z.le_lt_trans with (2 ^ 53); [lia |]. by apply Z.pow_lt_mono_r.
Qed.

Lemma show_positive_decimal (x : Z) :
  0 < x <= 2 ^ 64 -> exists y, 0 < y /\ Js.show_positive x = pretty y.
Proof.
  intros Ha. unfold Js.show_positive.
  pose proof (round_double_le_double x (proj1 Ha)) as Hx.
  set (x' := Js.round_double x) in *.
  pose proof (shortest_le_double x' (String.length (pretty x')) (proj1 Hx)) as Hy.
  set (y := Js.shortest x' _) in *.
  change (2 ^ 64) with 18446744073709551616 in Ha.
  rewrite (proj2 (Z.leb_gt _ _)), (proj2 (Z.ltb_lt _ _)).
  - exists y. split; [lia | reflexivity].
  - change (10 ^ 21) with 1000000000000000000000. lia.
  - apply Z.le_lt_trans with (2 ^ 66);
      [change (2 ^ 66) with 73786976294838206464; lia | by apply Z.pow_lt_mono_r].
Qed.

(** Below 2^64 a rounding moves a number by 1024 at most. *)
Lemma round_double_near (x : Z) :
  0 ≤ x < 2 ^ 64 → x - 1024 ≤ Js.round_double x ≤ x + 1024.
Proof.
  intros Hx. destruct (decide (x <= 2 ^ 53)) as [Hs | Hb].
  - rewrite round_double_safe by lia. lia.
  - assert (Hl : Z.log2 x < 64) by (apply Z.log2_lt_pow2; lia).
    assert (Hl' : 53 <= Z.log2 x) by (apply Z.log2_le_pow2; lia).
    unfold Js.round_double. set (e := Z.log2 x - 52).
    rewrite (proj2 (Z.leb_gt _ _)) by (unfold e; lia). cbv zeta.
    assert (He : 1 <= e <= 11) by (unfold e; lia).
    assert (HP : 2 ^ e = 2 * 2 ^ (e - 1)).
    { rewrite <- Z.pow_succ_r by lia. f_equal. lia. }
    assert (Hh : 0 < 2 ^ (e - 1) <= 1024).
    { split; [apply Z.pow_pos_nonneg; lia |].
      change 1024 with (2 ^ 10). apply Z.pow_le_mono_r; lia. }
    pose proof (Z.div_mod x (2 ^ e)) as Hdm.
    pose proof (Z.mod_pos_bound x (2 ^ e)) as Hmb.
    set (q := x / 2 ^ e) in *. set (r := x mod 2 ^ e) in *.
    set (h := 2 ^ (e - 1)) in *.
    destruct (h <? r) eqn:H1; [apply Z.ltb_lt in H1 | apply Z.ltb_ge in H1];
      cbn [orb].
    + nia.
    + destruct (r =? h) eqn:H2; [apply Z.eqb_eq in H2 | apply Z.eqb_neq in H2];
        cbn [andb]; [destruct (Z.odd q) |]; nia.
Qed.

Lemma round_double_nonneg (x : Z) : 0 <= x -> 0 <= Js.round_double x.
Proof.
  intros Hx. destruct (decide (x = 0)) as [-> | Hne]; [by vm_compute |].
  pose proof (round_double_le_double x). lia.
Qed.

(** A digit is read exactly while the sum with its character code
    fits in 53 bits. *)
Lemma read_digit_exact (a d : Z) :
  0 ≤ a → 0 ≤ d ≤ 9 → a * 10 + d ≤ 2 ^ 53 - 48 →
  Js.read_digit a d = a * 10 + d.
Proof.
  intros Ha Hd Hn. unfold Js.read_digit.
  change (2 ^ 53) with 9007199254740992 in Hn.
  rewrite (round_double_safe (a * 10))
    by (change (2 ^ 53) with 9007199254740992; lia).
  rewrite (round_double_safe (a * 10 + (48 + d)))
    by (change (2 ^ 53) with 9007199254740992; lia).
  rewrite round_double_safe by (change (2 ^ 53) with 9007199254740992; lia).
  lia.
Qed.

Lemma read_digits_exact (fuel : nat) (n : Z) :
  0 <= n <= 2 ^ 53 - 48 -> n < 10 ^ Z.of_nat fuel -> Js.read_digits fuel n = n.
Proof.
  revert n. induction fuel as [| fuel IH]; intros n Hn Hf.
  - change (10 ^ Z.of_nat 0) with 1 in Hf. cbn. lia.
  - cbn [Js.read_digits]. destruct (n <? 10) eqn:Hs.
    + apply Z.ltb_lt in Hs. rewrite read_digit_exact; lia.
    + apply Z.ltb_ge in Hs.
      pose proof (Z.div_mod n 10). pose proof (Z.mod_pos_bound n 10).
      rewrite IH.
      * rewrite read_digit_exact; lia.
      * lia.
      * apply Z.div_lt_upper_bound; [lia |].
        by rewrite Nat2Z.inj_succ, Z.pow_succ_r in Hf by lia.
Qed.

Lemma fuel_enough (n : Z) :
  0 <= n -> n < 10 ^ Z.of_nat (S (Z.to_nat (Z.log2 n))).
Proof.
  intros Hn. destruct (decide (n = 0)) as [-> | Hpos]; [done |].
  rewrite Nat2Z.inj_succ, Z2Nat.id by apply Z.log2_nonneg.
  destruct (Z.log2_spec n) as [_ Hhi]; [lia |].
  eapply Z.lt_le_trans; [exact Hhi |].
  apply Z.pow_le_mono_l. lia.
Qed.

Lemma number_of_reply_exact (n : Z) :
  0 ≤ n ≤ 2 ^ 53 - 48 → Js.number_of_reply n = n.
Proof. intros Hn. apply read_digits_exact; [done |]. apply fuel_enough. lia. Qed.

(** One digit more multiplies the error made so far by ten and adds
    three roundings. *)
Lemma read_digit_near (a m d E : Z) :
  0 ≤ d ≤ 9 → 0 ≤ E → E ≤ m → m - E ≤ a ≤ m + E →
  10 * (m + E) + 4000 < 2 ^ 64 →
  m * 10 + d - (10 * E + 3072) ≤ Js.read_digit a d
  ≤ m * 10 + d + (10 * E + 3072).
Proof.
  intros Hd HE Hm Ha Hb. unfold Js.read_digit.
  change (2 ^ 64) with 18446744073709551616 in Hb.
  assert (H1 : a * 10 - 1024 <= Js.round_double (a * 10) <= a * 10 + 1024)
    by (apply round_double_near; change (2 ^ 64) with 18446744073709551616; lia).
  pose proof (round_double_nonneg (a * 10)) as H1'.
  set (t1 := Js.round_double (a * 10)) in *.
  assert (H2 : t1 + (48 + d) - 1024 <= Js.round_double (t1 + (48 + d))
               <= t1 + (48 + d) + 1024)
    by (apply round_double_near; change (2 ^ 64) with 18446744073709551616; lia).
  assert (H2' : 48 <= Js.round_double (t1 + (48 + d))).
  { destruct (decide (t1 + (48 + d) <= 2 ^ 53)) as [Hs | Hbig].
    - rewrite round_double_safe by lia. lia.
    - change (2 ^ 53) with 9007199254740992 in Hbig. lia. }
  set (t2 := Js.round_double (t1 + (48 + d))) in *.
  assert (H3 : t2 - 48 - 1024 <= Js.round_double (t2 - 48) <= t2 - 48 + 1024)
    by (apply round_double_near; change (2 ^ 64) with 18446744073709551616; lia).
  lia.
Qed.

Lemma read_digits_unfold (fuel : nat) (n : Z) :
  10 <= n ->
  Js.read_digits (S fuel) n = Js.read_digit (Js.read_digits fuel (n / 10)) (n mod 10).
Proof.
  intros Hn. cbn [Js.read_digits]. by rewrite (proj2 (Z.ltb_ge _ _)).
Qed.

(** Up to 2^63 the number read is within a few million of the reply. *)
Lemma number_of_reply_near (n : Z) :
  0 ≤ n ≤ 2 ^ 63 →
  n - 3412992 ≤ Js.number_of_reply n ≤ n + 3412992.
Proof.
  intros Hn. destruct (decide (n <= 2 ^ 53 - 48)) as [Hs | Hb].
  - rewrite number_of_reply_exact by lia. lia.
  - change (2 ^ 53) with 9007199254740992 in Hb.
    change (2 ^ 63) with 9223372036854775808 in Hn.
    pose proof (fuel_enough n (proj1 Hn)) as Hf. unfold Js.number_of_reply.
    assert (Hl : 52 <= Z.log2 n)
      by (apply Z.log2_le_pow2; [lia | change (2 ^ 52) with 4503599627370496; lia]).
    destruct (Z.to_nat (Z.log2 n)) as [| [| [| [| f]]]] eqn:Hfuel; try lia.
    rewrite !Nat2Z.inj_succ in Hf.
    rewrite !Z.pow_succ_r in Hf by lia.
    set (n1 := n / 10). set (n2 := n1 / 10). set (n3 := n2 / 10).
    set (n4 := n3 / 10).
    pose proof (Z.div_mod n 10) as D1. pose proof (Z.mod_pos_bound n 10) as M1.
    pose proof (Z.div_mod n1 10) as D2. pose proof (Z.mod_pos_bound n1 10) as M2.
    pose proof (Z.div_mod n2 10) as D3. pose proof (Z.mod_pos_bound n2 10) as M3.
    pose proof (Z.div_mod n3 10) as D4. pose proof (Z.mod_pos_bound n3 10) as M4.
    fold n1 in D1. fold n2 in D2. fold n3 in D3. fold n4 in D4.
    rewrite (read_digits_unfold _ n) by lia. fold n1.
    rewrite (read_digits_unfold _ n1) by lia. fold n2.
    rewrite (read_digits_unfold _ n2) by lia. fold n3.
    rewrite (read_digits_unfold _ n3) by lia. fold n4.
    assert (H4 : Js.read_digits (S f) n4 = n4).
    { apply read_digits_exact;
        [change (2 ^ 53) with 9007199254740992; lia |].
      rewrite Nat2Z.inj_succ, Z.pow_succ_r by lia. lia. }
    rewrite H4.
    pose proof (read_digit_near n4 n4 (n3 mod 10) 0) as E3.
    set (a3 := Js.read_digit n4 (n3 mod 10)) in *.
    assert (E3' : n3 - 3072 <= a3 <= n3 + 3072)
      by (change (2 ^ 64) with 18446744073709551616 in E3; lia).
    pose proof (read_digit_near a3 n3 (n2 mod 10) 3072) as E2.
    set (a2 := Js.read_digit a3 (n2 mod 10)) in *.
    assert (E2' : n2 - 33792 <= a2 <= n2 + 33792)
      by (change (2 ^ 64) with 18446744073709551616 in E2; lia).
    pose proof (read_digit_near a2 n2 (n1 mod 10) 33792) as E1.
    set (a1 := Js.read_digit a2 (n1 mod 10)) in *.
    assert (E1' : n1 - 340992 <= a1 <= n1 + 340992)
      by (change (2 ^ 64) with 18446744073709551616 in E1; lia).
    pose proof (read_digit_near a1 n1 (n mod 10) 340992) as E0.
    change (2 ^ 64) with 18446744073709551616 in E0. lia.
Qed.

(** Up to 2^53 - 48 either way the reply is read exactly, and
    [`${n}`] is [n] in decimal. *)
Lemma to_string_safe (n : Z) :
  - (2 ^ 53 - 48) ≤ n ≤ 2 ^ 53 - 48 → Js.to_string n = decimal n.
Proof.
  intros Hn. destruct n as [| p | p]; [reflexivity | |].
  - cbn [Js.to_string]. rewrite number_of_reply_exact by lia.
    apply show_positive_safe. lia.
  - cbn [Js.to_string]. change (- Z.neg p) with (Z.pos p).
    rewrite number_of_reply_exact by lia.
    rewrite show_positive_safe by lia. reflexivity.
Qed.

Lemma to_string_decimal (n : Z) :
  0 < n <= 2 ^ 63 ->
  exists y, 0 < y /\ Js.show_positive (Js.number_of_reply n) = pretty y.
Proof.
  intros Hn. apply show_positive_decimal.
  pose proof (number_of_reply_near n) as Hnear.
  change (2 ^ 63) with 9223372036854775808 in *.
  change (2 ^ 64) with 18446744073709551616.
  destruct (decide (n <= 2 ^ 53 - 48)) as [Hs | Hb].
  - rewrite number_of_reply_exact by lia. lia.
  - change (2 ^ 53) with 9007199254740992 in Hb. lia.
Qed.

(** Within the range of a 64-bit store, [`${n}`] is an integer in
    decimal. *)
Lemma to_string_is_integer (n : Z) :
  - 2 ^ 63 ≤ n ≤ 2 ^ 63 → is_integer (Js.to_string n) = true.
Proof.
  intros Hn. destruct n as [| p | p]; [done | |]; cbn [Js.to_string Z.opp].
  - destruct (to_string_decimal (Z.pos p)) as (y & Hy & ->); [lia |].
    apply decimal_is_integer.
  - change (- Z.neg p) with (Z.pos p).
    destruct (to_string_decimal (Z.pos p)) as (y & Hy & ->); [lia |].
    destruct y as [| q | q]; [lia | | lia].
    destruct (pretty_positive_digits q) as [Hd Hne].
    change ("-" +:+ pretty (Z.pos q)) with (String "-" (pretty q)).
    unfold is_integer. rewrite bool_decide_true by done.
    rewrite Hd, bool_decide_false by done. reflexivity.
Qed.


Lemma strip_prefix_app (p s : string) : strip_prefix p (p +:+ s) = Some s.
Proof.
  induction p as [| a p IH]; [by destruct s |].
  change (strip_prefix (String a p) (String a (p +:+ s)) = Some s).
  cbn [strip_prefix]. by rewrite bool_decide_true.
Qed.

Lemma visits_body_matches (n : Z) :
  - 2 ^ 63 ≤ n ≤ 2 ^ 63 → matches_pattern (visits_body n) = true.
Proof.
  intros Hn. unfold matches_pattern, visits_body.
  rewrite strip_prefix_app. by apply to_string_is_integer.
Qed.


(* ===================================================================== *)
(** ** One request at a time *)
(* ===================================================================== *)

Lemma main_routes (env : gmap string string) :
  routes (main env) = [Route GET "/" handler].
Proof. reflexivity. Qed.

(** The handler run to its end, by how the increment settles. *)
Lemma run_handler (req : request) (w : world) (res : response) :
  run (handler req) w res =
  match perform (RedisIncr "visits") w res with
  | (Fulfilled v, w', res') => run (call (ResSend (visits_body v))) w' res'
  | (Rejected e, w', res') => (Rejected e, w', res')
  end.
Proof. cbn. by destruct (on_cache w res _) as [[[v | e] w'] res']. Qed.

Lemma perform_incr_accepted (w : world) (res : response) :
  cache_accepts w = true →
  perform (RedisIncr "visits") w res
  = (Fulfilled (store_incr "visits" w).1, (store_incr "visits" w).2, res).
Proof. intros Hup. cbn. unfold on_cache. by rewrite Hup. Qed.

Lemma perform_incr_refused (w : world) (res : response) :
  cache_accepts w = false →
  perform (RedisIncr "visits") w res = (Rejected CommandRefused, w, res).
Proof. intros Hdown. cbn. unfold on_cache. by rewrite Hdown. Qed.

Lemma serve_get_root_accepted (env : gmap string string) (w : world) :
  cache_accepts w = true →
  serve (routes (main env)) get_root w
  = (ok_answer (store_incr "visits" w).1, (store_incr "visits" w).2).
Proof.
  intros Hup. unfold serve.
  change (find_route (routes (main env)) get_root)
    with (Some (Route GET "/" handler)).
  cbn [route_handler]. rewrite run_handler, perform_incr_accepted by done.
  reflexivity.
Qed.

Lemma serve_get_root_refused (env : gmap string string) (w : world) :
  cache_accepts w = false →
  serve (routes (main env)) get_root w
  = (Some (Rejected CommandRefused, fresh_response), w).
Proof.
  intros Hdown. unfold serve.
  change (find_route (routes (main env)) get_root)
    with (Some (Route GET "/" handler)).
  cbn [route_handler]. rewrite run_handler, perform_incr_refused by done.
  reflexivity.
Qed.

(** C1, as amended: when the increment made for a [GET /] request
    returns [v], the request is answered with status 200 and, as an
    HTML page (the type [res.send] gives a string; the handler sets
    no plain-text type), the body [Hello 🚀 Visits: ] followed by the
    text JavaScript prints for the number the client read from the
    reply [v], nothing more.  Up to 2^53 - 48 either way that text is
    [v] in decimal, and within the range of a 64-bit store the body
    matches the pattern [Hello 🚀 Visits: <integer>]. *)
Theorem get_root_answer (env : gmap string string) (w w' : world) (v : Z)
    (res : response) :
  perform (RedisIncr "visits") w fresh_response = (Fulfilled v, w', res) →
  serve (routes (main env)) get_root w
  = (Some (Fulfilled tt,
           {| head_only := false;
              statusCode := 200;
              contentType := Some "text/html; charset=utf-8";
              sent := Some ("Hello 🚀 Visits: " +:+ Js.to_string v) |}), w')
  ∧ (- (2 ^ 53 - 48) ≤ v ≤ 2 ^ 53 - 48 → Js.to_string v = decimal v)
  ∧ (- 2 ^ 63 ≤ v ≤ 2 ^ 63 →
     matches_pattern ("Hello 🚀 Visits: " +:+ Js.to_string v) = true).
Proof.
  intros Hincr.
  split; [| split; [apply to_string_safe | apply visits_body_matches]].
  destruct (cache_accepts w) eqn:Hup.
  - rewrite perform_incr_accepted in Hincr by done.
    injection Hincr as <- <- <-. by apply serve_get_root_accepted.
  - rewrite perform_incr_refused in Hincr by done. discriminate.
Qed.

Lemma get_root_answer_witness :
  (serve (routes (main ∅)) get_root fresh_world).1 = ok_answer 1
  ∧ Js.to_string 1 = decimal 1.
Proof.
  destruct (get_root_answer ∅ fresh_world
              (store_incr "visits" fresh_world).2 1 fresh_response)
    as (Hserve & Hsafe & _).
  - vm_compute; reflexivity.
  - split; [by rewrite Hserve | apply Hsafe; lia].
Defined.

(** C1 as it was written fails twice.  The body is not sent as plain
    text: the content type of the answer is that of an HTML page.  And
    the number in the body is not always the integer the increment
    returned: from 2^63 - 2 the store returns 9223372036854775807 and
    the body ends in 9223372036854776000. *)
Lemma get_root_html_and_rounded :
  (∃ res, (serve (routes (main ∅)) get_root fresh_world).1
          = Some (Fulfilled tt, res)
          ∧ contentType res = Some "text/html; charset=utf-8"
          ∧ contentType res ≠ Some "text/plain; charset=utf-8")
  ∧ perform (RedisIncr "visits") (world_at (2 ^ 63 - 2)) fresh_response
    = (Fulfilled 9223372036854775807,
       (store_incr "visits" (world_at (2 ^ 63 - 2))).2, fresh_response)
  ∧ (∃ res, (serve (routes (main ∅)) get_root (world_at (2 ^ 63 - 2))).1
            = Some (Fulfilled tt, res)
            ∧ sent res = Some "Hello 🚀 Visits: 9223372036854776000"
            ∧ sent res
              ≠ Some ("Hello 🚀 Visits: " +:+ decimal 9223372036854775807)).
Proof.
  split; [| split].
  - eexists. split; [vm_compute; reflexivity |]. by split.
  - vm_compute; reflexivity.
  - eexists. split; [vm_compute; reflexivity |].
    split; [reflexivity |]. vm_compute. discriminate.
Qed.

(** C6: when the increment fails, the handler's promise rejects with
    that error and the handler has not called [res.send]: the response
    object is as express made it, so no greeting is sent for the
    request, and the stores are as they were. *)
Theorem get_root_failure (env : gmap string string) (w w' : world)
    (e : error) (res : response) :
  perform (RedisIncr "visits") w fresh_response = (Rejected e, w', res) →
  serve (routes (main env)) get_root w = (Some (Rejected e, fresh_response), w)
  ∧ sent fresh_response = None
  ∧ run (handler get_root) w fresh_response = (Rejected e, w, fresh_response).
Proof.
  intros Hincr. destruct (cache_accepts w) eqn:Hup.
  - rewrite perform_incr_accepted in Hincr by done. discriminate.
  - rewrite perform_incr_refused in Hincr by done. injection Hincr as <- <- <-.
    repeat split.
    + by apply serve_get_root_refused.
    + by rewrite run_handler, perform_incr_refused.
Qed.

Lemma get_root_failure_witness :
  serve (routes (main ∅)) get_root refusing_world
  = (Some (Rejected CommandRefused, fresh_response), refusing_world).
Proof.
  refine (proj1 (get_root_failure ∅ refusing_world refusing_world
                   CommandRefused fresh_response _)).
  reflexivity.
Defined.

(** C5: a [GET /] request that is handled makes the cache execute one
    command, [INCR visits], and nothing else: the key [visits] goes up
    by one (from 0 when it was absent), every other key keeps its
    value, and the relational store executes nothing. *)
Theorem get_root_frame (env : gmap string string) (w w' : world)
    (res : response) :
  serve (routes (main env)) get_root w = (Some (Fulfilled tt, res), w') →
  cache_log w' = cache_log w ++ [INCR "visits"]
  ∧ keyspace w' !! "visits" = Some (default 0 (keyspace w !! "visits") + 1)
  ∧ (∀ key, key ≠ "visits" → keyspace w' !! key = keyspace w !! key)
  ∧ db_log w' = db_log w
  ∧ cache_accepts w' = cache_accepts w.
Proof.
  intros Hserve. destruct (cache_accepts w) eqn:Hup.
  - rewrite serve_get_root_accepted in Hserve by done.
    injection Hserve as _ <-.
    cbn [cache_log keyspace db_log cache_accepts logged with_keyspace].
    repeat split; try done.
    + apply lookup_insert_eq.
    + intros key Hkey. by apply lookup_insert_ne.
  - rewrite serve_get_root_refused in Hserve by done. discriminate.
Qed.

Lemma get_root_frame_witness :
  cache_log (serve (routes (main ∅)) get_root fresh_world).2
  = [INCR "visits"].
Proof.
  refine (proj1 (get_root_frame ∅ fresh_world _ (send (visits_body 1)
                                                      fresh_response) _)).
  reflexivity.
Defined.




(* ===================================================================== *)
(** ** Routing *)
(* ===================================================================== *)

Lemma lower_ascii_slash (c : ascii) :
  lower_ascii c = "/"%char ↔ c = "/"%char.
Proof.
  split; [| by intros ->].
  destruct c as [[] [] [] [] [] [] [] []]; vm_compute; intros H;
    first [reflexivity | discriminate H].
Qed.

Lemma lower_slash (s : string) : lower s = "/" ↔ s = "/".
Proof.
  split; [| by intros ->].
  destruct s as [| c [| c' s']]; cbn; intros H; try discriminate H.
  injection H as H. by apply lower_ascii_slash in H as ->.
Qed.

Lemma lower_slash_slash (s : string) : lower s = "//" ↔ s = "//".
Proof.
  split; [| by intros ->].
  destruct s as [| c [| c' [| c'' s']]]; cbn; intros H; try discriminate H.
  injection H as H H'.
  apply lower_ascii_slash in H as ->. by apply lower_ascii_slash in H' as ->.
Qed.

(** The paths the route [/] answers: [/] and [//]. *)
Lemma path_matches_root (path : string) :
  path_matches "/" path
  = bool_decide (path = "/") || bool_decide (path = "//").
Proof.
  unfold path_matches. change (lower "/") with "/".
  change ("/" +:+ "/") with "//".
  by rewrite (bool_decide_ext _ _ (lower_slash path)),
    (bool_decide_ext _ _ (lower_slash_slash path)).
Qed.

Lemma handles_method_get (m : method) :
  handles_method (Route GET "/" handler) m
  = bool_decide (m = GET) || bool_decide (m = HEAD).
Proof. by destruct m. Qed.

Lemma matches_counted (req : request) :
  matches (Route GET "/" handler) req = counted req.
Proof.
  unfold matches, counted. cbn [route_path].
  by rewrite path_matches_root, handles_method_get.
Qed.

Lemma find_route_counted (env : gmap string string) (req : request) :
  find_route (routes (main env)) req
  = if counted req then Some (Route GET "/" handler) else None.
Proof. cbn [find_route]. by rewrite <- matches_counted. Qed.

(** C8, as amended: the program registers one route, GET on [/].
    express lets it answer HEAD as well, and the path [//] as well as
    [/].  Every other request, that is, one for a path that is neither
    [/] nor [//] or one with a method that is neither GET nor HEAD,
    reaches no handler of the program: the framework answers on its
    own and the stores are as they were, so the counter is not
    incremented. *)
Theorem unrouted_requests (env : gmap string string) (req : request)
    (w : world) :
  (req_path req ≠ "/" ∧ req_path req ≠ "//")
  ∨ (req_method req ≠ GET ∧ req_method req ≠ HEAD) →
  routes (main env) = [Route GET "/" handler]
  ∧ find_route (routes (main env)) req = None
  ∧ serve (routes (main env)) req w = (None, w).
Proof.
  intros Hother. split; [reflexivity |].
  assert (Hnone : find_route (routes (main env)) req = None).
  { rewrite find_route_counted. unfold counted.
    destruct Hother as [[Hp Hpp] | [Hg Hh]].
    - rewrite (bool_decide_false (req_path req = "/")) by done.
      by rewrite (bool_decide_false (req_path req = "//")).
    - rewrite (bool_decide_false (req_method req = GET)) by done.
      rewrite (bool_decide_false (req_method req = HEAD)) by done.
      by rewrite andb_false_r. }
  split; [done |]. unfold serve. by rewrite Hnone.
Qed.

Lemma unrouted_requests_witness :
  serve (routes (main ∅)) post_root fresh_world = (None, fresh_world).
Proof.
  refine (proj2 (proj2 (unrouted_requests ∅ post_root fresh_world _))).
  right. split; discriminate.
Defined.

(** C8 as it was written fails: HEAD is another method than GET, and
    a HEAD request for [/] runs the handler and takes the counter of a
    new cache to 1; [//] is another path than [/], and a GET request
    for it does the same. *)
Lemma head_root_increments :
  req_method head_root ≠ GET
  ∧ keyspace fresh_world !! "visits" = None
  ∧ (serve (routes (main ∅)) head_root fresh_world).1
    = Some (reply_to head_root 1)
  ∧ keyspace (serve (routes (main ∅)) head_root fresh_world).2 !! "visits"
    = Some 1
  ∧ req_path slash_root ≠ "/"
  ∧ (serve (routes (main ∅)) slash_root fresh_world).1 = ok_answer 1
  ∧ keyspace (serve (routes (main ∅)) slash_root fresh_world).2 !! "visits"
    = Some 1.
Proof.
  split; [discriminate |].
  repeat split; try discriminate; vm_compute; reflexivity.
Qed.

(* ===================================================================== *)
(** ** Start-up *)
(* ===================================================================== *)







(* ===================================================================== *)
(** ** Requests in flight at the same time: the invariant *)
(* ===================================================================== *)

Section Interleaving.

Variable env : gmap string string.

Lemma incrs_snoc (h : list (nat * event)) (r : nat) (ev : event) :
  incrs (h ++ [(r, ev)])
  = incrs h ++ match ev with Incremented _ v => [(r, v)] | _ => [] end.
Proof. unfold incrs. rewrite omap_app. by destruct ev. Qed.

Lemma sends_snoc (h : list (nat * event)) (r : nat) (ev : event) :
  sends (h ++ [(r, ev)])
  = sends h ++ match ev with Sent body => [(r, body)] | _ => [] end.
Proof. unfold sends. rewrite omap_app. by destruct ev. Qed.

Lemma incrs_elem (h : list (nat * event)) (r : nat) (v : Z) :
  (r, v) ∈ incrs h ↔ ∃ key, (r, Incremented key v) ∈ h.
Proof.
  unfold incrs. rewrite list_elem_of_omap. split.
  - intros ([r' ev] & Hin & Hev). destruct ev; simplify_eq. eauto.
  - intros [key Hin]. by exists (r, Incremented key v).
Qed.

Lemma sends_elem (h : list (nat * event)) (r : nat) (body : string) :
  (r, body) ∈ sends h ↔ (r, Sent body) ∈ h.
Proof.
  unfold sends. rewrite list_elem_of_omap. split.
  - intros ([r' ev] & Hin & Hev). destruct ev; by simplify_eq.
  - intros Hin. by exists (r, Sent body).
Qed.

Lemma incrs_ids (h : list (nat * event)) (r : nat) :
  r ∈ (incrs h).*1 → r ∈ h.*1.
Proof.
  intros ([r' v] & -> & Hin)%list_elem_of_fmap.
  apply incrs_elem in Hin as [key Hin].
  apply list_elem_of_fmap. by exists (r', Incremented key v).
Qed.

Lemma sends_ids (h : list (nat * event)) (r : nat) :
  r ∈ (sends h).*1 → r ∈ h.*1.
Proof.
  intros ([r' body] & -> & Hin)%list_elem_of_fmap.
  apply sends_elem in Hin.
  apply list_elem_of_fmap. by exists (r', Sent body).
Qed.

Lemma waiting_not_replying (v : Z) : waiting ≠ replying v.
Proof. intros Heq. by apply (f_equal next_body) in Heq. Qed.

(** Two bodies that wait to send hold the same text. *)
Lemma replying_body (v v' : Z) :
  replying v = replying v' → visits_body v = visits_body v'.
Proof.
  intros Heq. apply (f_equal next_body) in Heq.
  cbn [next_body replying call] in Heq. by apply (inj Some) in Heq.
Qed.

(** The three kinds of step a request of this program can make. *)
Lemma step_arrive (r : nat) (req : request) (s s' : state) :
  step (routes (main env)) (Arrive r req) s = Some s' →
  (r ∉ (history s).*1)
  ∧ running s' = true
  ∧ world_of s' = world_of s
  ∧ history s' = history s ++ [(r, Arrived req)]
  ∧ (tasks s' = tasks s
     ∨ ∃ res, sent res = None
              ∧ tasks s' = <[r := Task waiting res]> (tasks s)).
Proof.
  unfold step, serve_step. destruct (running s); [| done].
  case_bool_decide as Hfresh; [done |].
  intros [= <-]. cbn [running world_of history tasks].
  repeat split; [done |].
  cbn [find_route]. destruct (matches _ req); [right | by left].
  eexists. split; [| reflexivity]. reflexivity.
Qed.

Lemma step_resume_waiting (r : nat) (res : response) (s s' : state) :
  tasks s !! r = Some (Task waiting res) →
  step (routes (main env)) (Resume r) s = Some s' →
  (cache_accepts (world_of s) = true
   ∧ s' = {| running := true;
             world_of := (store_incr "visits" (world_of s)).2;
             tasks := <[r := Task (replying (store_incr "visits" (world_of s)).1)
                               res]> (tasks s);
             history := history s
               ++ [(r, Incremented "visits"
                         (store_incr "visits" (world_of s)).1)] |})
  ∨ (cache_accepts (world_of s) = false
     ∧ s' = {| running := true;
               world_of := world_of s;
               tasks := delete r (tasks s);
               history := history s ++ [(r, Failed CommandRefused)] |}).
Proof.
  intros Hr. unfold step, serve_step. destruct (running s); [| done].
  rewrite Hr. unfold waiting, handler.
  cbn [mbind prog_bind bind call]. cbn [perform]. unfold on_cache.
  destruct (cache_accepts (world_of s)) eqn:Hup; intros [= <-];
    [left | right]; (split; [done |]); reflexivity.
Qed.

Lemma step_resume_replying (r : nat) (v : Z) (res : response)
    (s s' : state) :
  tasks s !! r = Some (Task (replying v) res) →
  sent res = None →
  step (routes (main env)) (Resume r) s = Some s' →
  s' = {| running := true;
          world_of := world_of s;
          tasks := delete r (tasks s);
          history := history s ++ [(r, Sent (visits_body v))] |}.
Proof.
  intros Hr Hres. unfold step, serve_step. destruct (running s); [| done].
  rewrite Hr. unfold replying, call. cbn [perform]. rewrite Hres.
  by intros [= <-].
Qed.

Lemma coherent_init : coherent init.
Proof.
  split; cbn; try done; try apply NoDup_nil_2.
  - intros r key v Hin. by apply elem_of_nil in Hin.
  - intros r body Hin. by apply elem_of_nil in Hin.
  - intros r v Hin. by apply elem_of_nil in Hin.
Qed.

Lemma coherent_arrive (r : nat) (req : request) (s s' : state) :
  coherent s →
  step (routes (main env)) (Arrive r req) s = Some s' →
  coherent s'.
Proof.
  intros [Hcnt Hval Hkey Hi1 Hs1 Htasks Hsends Hincrs] Hstep.
  apply step_arrive in Hstep as (Hfresh & _ & Hw & Hh & Ht).
  assert (Hin : incrs (history s') = incrs (history s))
    by (rewrite Hh, incrs_snoc; apply app_nil_r).
  assert (Hsn : sends (history s') = sends (history s))
    by (rewrite Hh, sends_snoc; apply app_nil_r).
  assert (Hids : ∀ r', r' ∈ (history s).*1 → r' ∈ (history s').*1).
  { intros r' Hr'. rewrite Hh, fmap_app. apply elem_of_app. by left. }
  split; rewrite ?Hin, ?Hsn, ?Hw; try done.
  - intros r' key v Hel. rewrite Hh in Hel.
    apply elem_of_app in Hel as [Hel | Hel%list_elem_of_singleton];
      [eauto | discriminate].
  - intros r' t Hl.
    assert (Hold : tasks s !! r' = Some t
                   ∨ (r' = r ∧ task_body t = waiting
                      ∧ sent (task_res t) = None)).
    { destruct Ht as [Ht | (res & Hres & Ht)]; rewrite Ht in Hl; [by left |].
      destruct (decide (r = r')) as [<- | Hne].
      - rewrite lookup_insert_eq in Hl. right. by injection Hl as <-.
      - rewrite lookup_insert_ne in Hl by done. by left. }
    destruct Hold as [Hold | (-> & Hb & Hres)].
    + destruct (Htasks r' t Hold) as (Hid & Hns & Hcase). auto.
    + split; [| split; [| split; [done |]]].
      * rewrite Hh, fmap_app. apply elem_of_app. right. by left.
      * intros Hin'. by apply sends_ids in Hin'.
      * left. split; [done |]. intros Hin'. by apply incrs_ids in Hin'.
  - intros r' v Hel.
    destruct (Hincrs r' v Hel) as [Hsent | Hl]; [by left | right].
    destruct Ht as [-> | (res & _ & ->)]; [done |].
    rewrite lookup_insert_ne; [done |]. intros <-.
    apply Hfresh, incrs_ids, list_elem_of_fmap. by exists (r, v).
Qed.

Lemma coherent_incremented (r : nat) (res : response) (b : bool)
    (s : state) :
  coherent s →
  tasks s !! r = Some (Task waiting res) →
  coherent
    {| running := b;
       world_of := (store_incr "visits" (world_of s)).2;
       tasks := <[r := Task (replying (store_incr "visits" (world_of s)).1)
                         res]> (tasks s);
       history := history s
         ++ [(r, Incremented "visits" (store_incr "visits" (world_of s)).1)] |}.
Proof.
  intros [Hcnt Hval Hkey Hi1 Hs1 Htasks Hsends Hincrs] Hr.
  destruct (Htasks r _ Hr) as (Hid & Hns & Hres & [[_ Hni] | (v & Hv & _)]);
    [| by apply waiting_not_replying in Hv].
  cbn [task_res] in Hres.
  set (n := length (incrs (history s))) in *.
  assert (Hnew : (store_incr "visits" (world_of s)).1 = Z.of_nat n + 1)
    by (cbn; by rewrite Hcnt).
  rewrite Hnew. clear Hnew.
  split; cbn [world_of tasks history store_incr snd keyspace logged
              with_keyspace];
    rewrite ?incrs_snoc, ?sends_snoc, ?app_nil_r.
  - rewrite lookup_insert_eq, length_app. cbn. lia.
  - rewrite fmap_app, Hval, length_app. fold n. cbn [length fmap list_fmap snd].
    replace (Z.of_nat (n + 1)) with (Z.of_nat n + 1) by lia.
    rewrite seqZ_app by lia. f_equal.
    change (seqZ (1 + Z.of_nat n) 1) with [0 + (1 + Z.of_nat n)].
    f_equal. lia.
  - intros r' key v Hel.
    apply elem_of_app in Hel as [Hel | Hel%list_elem_of_singleton];
      [eauto | by injection Hel as _ -> _].
  - rewrite fmap_app. apply NoDup_app. split; [done |]. split.
    + intros r' Hr' ->%list_elem_of_singleton. done.
    + apply NoDup_singleton.
  - done.
  - intros r' t Hl. destruct (decide (r = r')) as [<- | Hne].
    + rewrite lookup_insert_eq in Hl. injection Hl as <-.
      split; [| split; [done | split; [done |]]].
      * rewrite fmap_app. apply elem_of_app. by left.
      * right. eexists. split; [done |]. apply elem_of_app. right. by left.
    + rewrite lookup_insert_ne in Hl by done.
      destruct (Htasks r' t Hl) as (Hid' & Hns' & Hres' & Hcase).
      split; [| split; [done | split; [done |]]].
      * rewrite fmap_app. apply elem_of_app. by left.
      * destruct Hcase as [[Hb Hni'] | (v & Hb & Hv)]; [left | right].
        -- split; [done |]. rewrite fmap_app. intros Hin.
           apply elem_of_app in Hin as [Hin | Hin%list_elem_of_singleton];
             [done | by apply Hne].
        -- exists v. split; [done |]. apply elem_of_app. by left.
  - intros r' body Hel. destruct (Hsends r' body Hel) as (v & Hv & ->).
    exists v. split; [| done]. apply elem_of_app. by left.
  - intros r' v Hel.
    apply elem_of_app in Hel as [Hel | Hel%list_elem_of_singleton].
    + destruct (Hincrs r' v Hel) as [Hsent | (t & Hl & Hb)]; [by left | right].
      exists t. split; [| done].
      rewrite lookup_insert_ne; [done |]. intros <-.
      rewrite Hr in Hl. injection Hl as <-.
      by apply waiting_not_replying in Hb.
    + injection Hel as -> ->. right. eexists.
      split; [apply lookup_insert_eq | done].
Qed.

Lemma coherent_failed (r : nat) (res : response) (b : bool) (s : state) :
  coherent s →
  tasks s !! r = Some (Task waiting res) →
  coherent
    {| running := b;
       world_of := world_of s;
       tasks := delete r (tasks s);
       history := history s ++ [(r, Failed CommandRefused)] |}.
Proof.
  intros [Hcnt Hval Hkey Hi1 Hs1 Htasks Hsends Hincrs] Hr.
  split; cbn [world_of tasks history];
    rewrite ?incrs_snoc, ?sends_snoc, ?app_nil_r; try done.
  - intros r' key v Hel.
    apply elem_of_app in Hel as [Hel | Hel%list_elem_of_singleton];
      [eauto | discriminate].
  - intros r' t Hl. apply lookup_delete_Some in Hl as [Hne Hl].
    destruct (Htasks r' t Hl) as (Hid' & Hns' & Hcase).
    split; [| done]. rewrite fmap_app. apply elem_of_app. by left.
  - intros r' v Hel.
    destruct (Hincrs r' v Hel) as [Hsent | (t & Hl & Hb)]; [by left | right].
    exists t. split; [| done].
    rewrite lookup_delete_ne; [done |]. intros <-.
    rewrite Hr in Hl. injection Hl as <-.
    by apply waiting_not_replying in Hb.
Qed.

Lemma coherent_sent (r : nat) (v : Z) (res : response) (b : bool)
    (s : state) :
  coherent s →
  tasks s !! r = Some (Task (replying v) res) →
  coherent
    {| running := b;
       world_of := world_of s;
       tasks := delete r (tasks s);
       history := history s ++ [(r, Sent (visits_body v))] |}.
Proof.
  intros [Hcnt Hval Hkey Hi1 Hs1 Htasks Hsends Hincrs] Hr.
  destruct (Htasks r _ Hr)
    as (Hid & Hns & _ & [[Hv _] | (v' & Hv' & Hiv)]);
    [symmetry in Hv; by apply waiting_not_replying in Hv |].
  cbn [task_body] in Hv'. apply replying_body in Hv'.
  split; cbn [world_of tasks history];
    rewrite ?incrs_snoc, ?sends_snoc, ?app_nil_r; try done.
  - intros r' key v'' Hel.
    apply elem_of_app in Hel as [Hel | Hel%list_elem_of_singleton];
      [eauto | discriminate].
  - rewrite fmap_app. apply NoDup_app. split; [done |]. split.
    + intros r' Hr' ->%list_elem_of_singleton. done.
    + apply NoDup_singleton.
  - intros r' t Hl. apply lookup_delete_Some in Hl as [Hne Hl].
    destruct (Htasks r' t Hl) as (Hid' & Hns' & Hcase).
    split; [| split; [| done]].
    + rewrite fmap_app. apply elem_of_app. by left.
    + rewrite fmap_app. intros Hin.
      apply elem_of_app in Hin as [Hin | Hin%list_elem_of_singleton];
        [done | by apply Hne].
  - intros r' body Hel.
    apply elem_of_app in Hel as [Hel | Hel%list_elem_of_singleton]; [eauto |].
    injection Hel as -> ->. eauto.
  - intros r' v'' Hel.
    destruct (Hincrs r' v'' Hel) as [Hsent | (t & Hl & Hb)].
    + left. apply elem_of_app. by left.
    + destruct (decide (r = r')) as [<- | Hne].
      * rewrite Hr in Hl. injection Hl as <-. cbn [task_body] in Hb.
        apply replying_body in Hb. rewrite <- Hb.
        left. apply elem_of_app. right. by left.
      * right. exists t. by rewrite lookup_delete_ne.
Qed.

Lemma coherent_step (m : move) (s s' : state) :
  coherent s → step (routes (main env)) m s = Some s' → coherent s'.
Proof.
  intros Hc Hstep. destruct m as [r req | r | | | c].
  - by eapply coherent_arrive.
  - destruct (tasks s !! r) as [[body res] |] eqn:Hr.
    2: { unfold step, serve_step in Hstep. rewrite Hr in Hstep.
         by destruct (running s). }
    destruct (coh_tasks s Hc r _ Hr) as (_ & _ & Hres & Hcase).
    cbn [task_body task_res] in Hres, Hcase.
    destruct Hcase as [[-> _] | (v & -> & _)].
    + destruct (step_resume_waiting r res s s' Hr Hstep)
        as [[Hup ->] | [Hdown ->]].
      * by apply coherent_incremented.
      * by eapply coherent_failed.
    + rewrite (step_resume_replying r v res s s' Hr Hres Hstep).
      by eapply coherent_sent.
  - injection Hstep as <-. by destruct Hc.
  - injection Hstep as <-. by destruct Hc.
  - injection Hstep as <-. by destruct Hc.
Qed.

Lemma coherent_exec (ms : list move) (s s' : state) :
  coherent s → exec (routes (main env)) ms s = Some s' → coherent s'.
Proof.
  revert s. induction ms as [| m ms IH]; intros s Hc Hexec.
  - by injection Hexec as <-.
  - cbn [exec] in Hexec.
    destruct (step _ m s) as [s1 |] eqn:Hstep; [| discriminate].
    eapply IH; [| done]. by eapply coherent_step.
Qed.

(** When nothing is in flight, the responses are those of the
    increments, request by request. *)
Lemma coherent_quiescent (s : state) :
  coherent s →
  tasks s = ∅ →
  sends (history s)
  ≡ₚ (fun '(r, v) => (r, visits_body v)) <$> incrs (history s).
Proof.
  intros [Hcnt Hval Hkey Hi1 Hs1 Htasks Hsends Hincrs] Hidle.
  apply NoDup_Permutation.
  - by apply (NoDup_fmap_1 fst).
  - apply (NoDup_fmap_1 fst). rewrite <- list_fmap_compose.
    erewrite list_fmap_ext; [exact Hi1 |]. by intros _ [r v] _.
  - intros [r body]. split.
    + intros Hin. destruct (Hsends r body Hin) as (v & Hv & ->).
      apply list_elem_of_fmap. by exists (r, v).
    + intros ([r' v] & [= -> ->] & Hin)%list_elem_of_fmap.
      destruct (Hincrs r' v Hin) as [Hsent | (t & Hl & _)]; [done |].
      rewrite Hidle in Hl. by rewrite lookup_empty in Hl.
Qed.

End Interleaving.



(* ===================================================================== *)
(** ** More on the connection options *)
(* ===================================================================== *)

Lemma or_else_nonempty (v : option string) (d : string) :
  d ≠ EmptyString → Js.or_else v d ≠ EmptyString.
Proof. by destruct v as [[| a s] |]. Qed.

(** X1: the options of the relational client depend on DB_HOST,
    DB_USER, DB_PASSWORD and DB_NAME only: two environments that agree
    on these four give the same options, whatever else they hold. *)
Theorem pg_options_only_db_vars (env env' : gmap string string) :
  env !! "DB_HOST" = env' !! "DB_HOST" →
  env !! "DB_USER" = env' !! "DB_USER" →
  env !! "DB_PASSWORD" = env' !! "DB_PASSWORD" →
  env !! "DB_NAME" = env' !! "DB_NAME" →
  Config.pgOptions env = Config.pgOptions env'.
Proof.
  intros Hh Hu Hp Hd. unfold Config.pgOptions, Js.getenv.
  by rewrite Hh, Hu, Hp, Hd.
Qed.

Lemma pg_options_only_db_vars_witness :
  Config.pgOptions env_compose = Config.pgOptions ∅.
Proof.
  apply (pg_options_only_db_vars env_compose ∅); vm_compute; reflexivity.
Defined.

(** X2: setting one of the four variables to a string that is not
    empty changes the parameter it stands for and leaves the other
    three as they were. *)
Theorem pg_options_set_one (env : gmap string string) (v : string) :
  v ≠ EmptyString →
  let o := Config.pgOptions env in
  Config.pgOptions (<["DB_HOST" := v]> env)
  = Config.PgOptions v (Config.user o) (Config.password o) (Config.database o)
  ∧ Config.pgOptions (<["DB_USER" := v]> env)
    = Config.PgOptions (Config.host o) v (Config.password o)
                       (Config.database o)
  ∧ Config.pgOptions (<["DB_PASSWORD" := v]> env)
    = Config.PgOptions (Config.host o) (Config.user o) v (Config.database o)
  ∧ Config.pgOptions (<["DB_NAME" := v]> env)
    = Config.PgOptions (Config.host o) (Config.user o) (Config.password o) v.
Proof.
  intros Hv. unfold Config.pgOptions, Js.getenv. cbn.
  repeat split;
    rewrite lookup_insert_eq, !lookup_insert_ne by done;
    by rewrite or_else_set.
Qed.

Lemma pg_options_set_one_witness :
  Config.pgOptions (<["DB_NAME" := "shop"]> env_compose)
  = Config.PgOptions "db" "postgres" "password" "shop".
Proof.
  refine (eq_trans
    (proj2 (proj2 (proj2 (pg_options_set_one env_compose "shop" _)))) _).
  - discriminate.
  - vm_compute; reflexivity.
Defined.

(** X3: no environment gives the relational client an empty host,
    user, password or database name. *)
Theorem pg_options_never_empty (env : gmap string string) :
  Config.host (Config.pgOptions env) ≠ EmptyString
  ∧ Config.user (Config.pgOptions env) ≠ EmptyString
  ∧ Config.password (Config.pgOptions env) ≠ EmptyString
  ∧ Config.database (Config.pgOptions env) ≠ EmptyString.
Proof. repeat split; by apply or_else_nonempty. Qed.

(* ===================================================================== *)
(** ** Mixed traffic, one request at a time *)
(* ===================================================================== *)

Lemma serve_counted_accepted (env : gmap string string) (req : request)
    (w : world) :
  counted req = true →
  cache_accepts w = true →
  serve (routes (main env)) req w
  = (Some (reply_to req (store_incr "visits" w).1),
     (store_incr "visits" w).2).
Proof.
  intros Hreq Hup. unfold serve. rewrite find_route_counted, Hreq.
  cbn [route_handler]. by rewrite run_handler, perform_incr_accepted.
Qed.

Lemma serve_counted_refused (env : gmap string string) (req : request)
    (w : world) :
  counted req = true →
  cache_accepts w = false →
  serve (routes (main env)) req w
  = (Some (Rejected CommandRefused, new_response (is_head req)), w).
Proof.
  intros Hreq Hdown. unfold serve. rewrite find_route_counted, Hreq.
  cbn [route_handler]. by rewrite run_handler, perform_incr_refused.
Qed.

Lemma serve_not_counted (env : gmap string string) (req : request)
    (w : world) :
  counted req = false → serve (routes (main env)) req w = (None, w).
Proof. intros Hreq. unfold serve. by rewrite find_route_counted, Hreq. Qed.

(** X4: while the process is alive and the cache accepts commands,
    any list of requests served one after the other moves the counter
    by the number of requests for [/] or [//] with method GET or HEAD;
    these are answered, in order, with status 200 and the values that
    follow the counter's old value, as JavaScript prints them, in the
    body (no body for HEAD); the cache has executed one [INCR visits]
    for each of them and nothing else, and the relational store
    nothing at all. *)
Theorem mixed_traffic_counts (env : gmap string string)
    (reqs : list request) (w : world) :
  cache_accepts w = true →
  omap id (serve_all (routes (main env)) reqs w).1
  = zip_with reply_to (List.filter counted reqs)
      (seqZ (default 0 (keyspace w !! "visits") + 1)
            (Z.of_nat (visits_in reqs)))
  ∧ default 0 (keyspace (serve_all (routes (main env)) reqs w).2 !! "visits")
    = default 0 (keyspace w !! "visits") + Z.of_nat (visits_in reqs)
  ∧ cache_log (serve_all (routes (main env)) reqs w).2
    = cache_log w ++ replicate (visits_in reqs) (INCR "visits")
  ∧ db_log (serve_all (routes (main env)) reqs w).2 = db_log w
  ∧ (∀ key, key ≠ "visits" →
       keyspace (serve_all (routes (main env)) reqs w).2 !! key
       = keyspace w !! key).
Proof.
  revert w. induction reqs as [| req reqs IH]; intros w Hup.
  { cbn. rewrite app_nil_r. repeat split; lia. }
  cbn [serve_all]. unfold visits_in. cbn [List.filter].
  destruct (counted req) eqn:Hreq.
  - rewrite serve_counted_accepted by done.
    destruct (IH (store_incr "visits" w).2 Hup) as (Ha & Hc & Hl & Hd & Hk).
    destruct (serve_all _ reqs _) as [answers w'']. cbn [fst snd] in *.
    fold (visits_in reqs). cbn [length].
    cbn [store_incr snd keyspace cache_log db_log logged with_keyspace]
      in Ha, Hc, Hl, Hd, Hk.
    rewrite lookup_insert_eq in Ha, Hc.
    change (default 0 (Some ?x)) with x in Ha, Hc.
    repeat split.
    + rewrite Nat2Z.inj_succ, seqZ_cons by lia.
      cbn [omap list_omap id zip_with]. rewrite Ha.
      unfold visits_in. f_equal. f_equal. f_equal; lia.
    + rewrite Hc. unfold visits_in. lia.
    + rewrite Hl, <- app_assoc. reflexivity.
    + done.
    + intros key Hkey. rewrite Hk by done. by apply lookup_insert_ne.
  - rewrite serve_not_counted by done.
    destruct (IH w Hup) as (Ha & Hc & Hl & Hd & Hk).
    destruct (serve_all _ reqs _) as [answers w'']. cbn [fst snd] in *.
    fold (visits_in reqs). by repeat split.
Qed.

Lemma mixed_traffic_counts_witness :
  omap id (serve_all (routes (main ∅)) mixed_requests fresh_world).1
  = [reply_to get_root 1; reply_to head_root 2; reply_to slash_root 3].
Proof.
  exact (proj1 (mixed_traffic_counts ∅ mixed_requests fresh_world eq_refl)).
Defined.

(** X5: while the process is alive and the cache answers commands
    with an error, any list of requests served one after the other
    leaves both stores exactly as they were: the requests that reach
    the handler end in a rejection without the handler having sent a
    response, the others reach no handler, and no counter value is
    used up. *)
Theorem refused_traffic_changes_nothing (env : gmap string string)
    (reqs : list request) (w : world) :
  cache_accepts w = false →
  serve_all (routes (main env)) reqs w = (refused_answer <$> reqs, w).
Proof.
  intros Hdown. induction reqs as [| req reqs IH]; [done |].
  cbn [serve_all]. rewrite fmap_cons. unfold refused_answer at 1.
  destruct (counted req) eqn:Hreq.
  - by rewrite serve_counted_refused, IH.
  - by rewrite serve_not_counted, IH.
Qed.

Lemma refused_traffic_changes_nothing_witness :
  (serve_all (routes (main ∅)) mixed_requests refusing_world).2
  = refusing_world.
Proof.
  exact (f_equal snd
    (refused_traffic_changes_nothing ∅ mixed_requests refusing_world
       eq_refl)).
Defined.

(* ===================================================================== *)
(** ** More on requests in flight at the same time *)
(* ===================================================================== *)

Section Executions.

Variable env : gmap string string.

(** The five shapes a step can have. *)
Lemma step_cases (m : move) (s s' : state) :
  coherent s →
  step (routes (main env)) m s = Some s' →
  (∃ r req, history s' = history s ++ [(r, Arrived req)]
            ∧ world_of s' = world_of s)
  ∨ (∃ r, history s' = history s
            ++ [(r, Incremented "visits" (store_incr "visits" (world_of s)).1)]
          ∧ world_of s' = (store_incr "visits" (world_of s)).2)
  ∨ (∃ r, history s' = history s ++ [(r, Failed CommandRefused)]
          ∧ world_of s' = world_of s)
  ∨ (∃ r v, history s' = history s ++ [(r, Sent (visits_body v))]
            ∧ world_of s' = world_of s)
  ∨ (∃ b, history s' = history s
          ∧ world_of s' = with_cache_accepts b (world_of s)).
Proof.
  intros Hc Hstep. destruct m as [r req | r | | | c].
  - apply step_arrive in Hstep as (_ & _ & Hw & Hh & _). left. eauto.
  - destruct (tasks s !! r) as [[body res] |] eqn:Hr.
    2: { unfold step, serve_step in Hstep. rewrite Hr in Hstep.
         by destruct (running s). }
    destruct (coh_tasks s Hc r _ Hr) as (_ & _ & Hres & Hcase).
    cbn [task_body task_res] in Hres, Hcase.
    destruct Hcase as [[-> _] | (v & -> & _)].
    + destruct (step_resume_waiting env r res s s' Hr Hstep)
        as [[Hup ->] | [Hdown ->]].
      * right. left. by exists r.
      * right. right. left. by exists r.
    + rewrite (step_resume_replying env r v res s s' Hr Hres Hstep).
      right. right. right. left. by exists r, v.
  - injection Hstep as <-. do 4 right. by exists false.
  - injection Hstep as <-. do 4 right. by exists true.
  - injection Hstep as <-. do 4 right.
    exists (cache_accepts (world_of s)). by destruct (world_of s).
Qed.

(** A property kept by every step holds at the end of an execution. *)
Lemma exec_invariant (P : state → Prop) :
  (∀ m s s', coherent s → P s →
             step (routes (main env)) m s = Some s' → P s') →
  ∀ ms s s', coherent s → P s →
             exec (routes (main env)) ms s = Some s' → P s'.
Proof.
  intros Hkeep ms. induction ms as [| m ms IH]; intros s s' Hc HP Hexec.
  - by injection Hexec as <-.
  - cbn [exec] in Hexec.
    destruct (step _ m s) as [s1 |] eqn:Hstep; [| discriminate].
    apply (IH s1); [by eapply coherent_step | by eapply Hkeep | done].
Qed.


Lemma only_incremented_step (m : move) (s s' : state) :
  coherent s →
  only_incremented s →
  step (routes (main env)) m s = Some s' →
  only_incremented s'.
Proof.
  intros Hc (Hlog & Hdb & Hkeys) Hstep. unfold only_incremented.
  destruct (step_cases m s s' Hc Hstep)
    as [(r & req & -> & ->) | [(r & -> & ->) | [(r & -> & ->)
       | [(r & v & -> & ->) | (b & -> & ->)]]]];
    rewrite ?incrs_snoc, ?app_nil_r; try done.
  cbn [store_incr snd cache_log db_log keyspace logged with_keyspace].
  rewrite length_app, Nat.add_1_r, replicate_S_end, Hlog.
  repeat split; [done |].
  intros key Hkey. rewrite lookup_insert_ne by done. by apply Hkeys.
Qed.


End Executions.



(** Why X6 stops at the range of a 64-bit store: a number of more
    than 21 digits is printed with an exponent, and such a body does
    not match the pattern. *)
Lemma large_body_has_exponent :
  visits_body (10 ^ 21) = "Hello 🚀 Visits: 1e+21"
  ∧ matches_pattern (visits_body (10 ^ 21)) = false.
Proof. split; vm_compute; reflexivity. Qed.

(** X7: in every execution the cache has executed nothing but
    [INCR visits], once per completed increment, the relational store
    has executed nothing, and the cache holds no key but [visits]. *)
Theorem stores_only_incremented (env : gmap string string) (ms : list move)
    (s : state) :
  exec (routes (main env)) ms init = Some s → only_incremented s.
Proof.
  intros Hexec.
  apply (exec_invariant env only_incremented (only_incremented_step env)
           ms init s coherent_init); [| done].
  by repeat split.
Qed.

Lemma stores_only_incremented_witness :
  ∃ s, exec (routes (main ∅)) overtaking init = Some s ∧ only_incremented s.
Proof.
  destruct (exec (routes (main ∅)) overtaking init) as [s |] eqn:Hexec;
    [| vm_compute in Hexec; discriminate].
  exists s. split; [reflexivity |].
  exact (stores_only_incremented ∅ overtaking s Hexec).
Defined.




(** X9: in every execution the counter in the cache is the number of
    increments completed so far; the number of responses sent never
    exceeds it, and equals it once no request is in flight. Requests
    that failed have used up no counter value. *)
Theorem counter_and_responses (env : gmap string string) (ms : list move)
    (s : state) :
  exec (routes (main env)) ms init = Some s →
  default 0 (keyspace (world_of s) !! "visits")
  = Z.of_nat (length (incrs (history s)))
  ∧ (length (sends (history s)) ≤ length (incrs (history s)))%nat
  ∧ (tasks s = ∅ →
     default 0 (keyspace (world_of s) !! "visits")
     = Z.of_nat (length (sends (history s)))).
Proof.
  intros Hexec.
  pose proof (coherent_exec env ms init s coherent_init Hexec) as Hc.
  split; [apply (coh_counter s Hc) |]. split.
  - rewrite <- (length_fmap (fun '(r, v) => (r, visits_body v))
                            (incrs (history s))).
    apply submseteq_length, NoDup_submseteq.
    + apply (NoDup_fmap_1 fst), (coh_send_once s Hc).
    + intros [r body] Hin.
      destruct (coh_sends s Hc r body Hin) as (v & Hv & ->).
      apply list_elem_of_fmap. by exists (r, v).
  - intros Hidle. rewrite (coh_counter s Hc).
    by rewrite (Permutation_length (coherent_quiescent s Hc Hidle)),
      length_fmap.
Qed.

Lemma counter_and_responses_witness :
  ∃ s, exec (routes (main ∅)) midway init = Some s
       ∧ default 0 (keyspace (world_of s) !! "visits") = 1
       ∧ length (sends (history s)) = 0%nat.
Proof.
  assert (Hsome : bool_decide (is_Some (exec (routes (main ∅)) midway init))
                  = true) by (vm_compute; reflexivity).
  destruct (exec (routes (main ∅)) midway init) as [s |] eqn:Hexec;
    [| discriminate Hsome].
  exists s. split; [reflexivity |].
  destruct (counter_and_responses ∅ midway s Hexec) as (Hcount & _ & _).
  assert (Hs : (fun s => (length (incrs (history s)),
                          length (sends (history s))))
               <$> exec (routes (main ∅)) midway init
               = Some (1%nat, 0%nat)) by (vm_compute; reflexivity).
  rewrite Hexec in Hs. injection Hs as Hi Hsn.
  rewrite Hi in Hcount. by split.
Defined.

Section Progress.

Variable env : gmap string string.

Lemma resume_waiting_accepted (r : nat) (res : response) (s : state) :
  running s = true →
  tasks s !! r = Some (Task waiting res) →
  cache_accepts (world_of s) = true →
  step (routes (main env)) (Resume r) s
  = Some {| running := true;
            world_of := (store_incr "visits" (world_of s)).2;
            tasks := <[r := Task (replying (store_incr "visits" (world_of s)).1)
                              res]> (tasks s);
            history := history s
              ++ [(r, Incremented "visits"
                        (store_incr "visits" (world_of s)).1)] |}.
Proof.
  intros Hrun Hr Hup. unfold step, serve_step. rewrite Hrun, Hr.
  unfold waiting, handler.
  cbn [mbind prog_bind bind call]. cbn [perform]. unfold on_cache.
  by rewrite Hup.
Qed.

Lemma resume_waiting_refused (r : nat) (res : response) (s : state) :
  running s = true →
  tasks s !! r = Some (Task waiting res) →
  cache_accepts (world_of s) = false →
  step (routes (main env)) (Resume r) s
  = Some {| running := true;
            world_of := world_of s;
            tasks := delete r (tasks s);
            history := history s ++ [(r, Failed CommandRefused)] |}.
Proof.
  intros Hrun Hr Hdown. unfold step, serve_step. rewrite Hrun, Hr.
  unfold waiting, handler.
  cbn [mbind prog_bind bind call]. cbn [perform]. unfold on_cache.
  by rewrite Hdown.
Qed.

Lemma resume_replying (r : nat) (v : Z) (res : response) (s : state) :
  running s = true →
  tasks s !! r = Some (Task (replying v) res) →
  sent res = None →
  step (routes (main env)) (Resume r) s
  = Some {| running := true;
            world_of := world_of s;
            tasks := delete r (tasks s);
            history := history s ++ [(r, Sent (visits_body v))] |}.
Proof.
  intros Hrun Hr Hres. unfold step, serve_step. rewrite Hrun, Hr.
  unfold replying, call. cbn [perform]. by rewrite Hres.
Qed.

Lemma sends_ids_app (h h' : list (nat * event)) (r : nat) :
  r ∈ (sends h).*1 → r ∈ (sends (h ++ h')).*1.
Proof.
  intros Hin. unfold sends. rewrite omap_app, fmap_app.
  apply elem_of_app. by left.
Qed.

Lemma sends_ids_sent (h : list (nat * event)) (r : nat) (body : string) :
  r ∈ (sends (h ++ [(r, Sent body)])).*1.
Proof.
  rewrite sends_snoc, fmap_app. apply elem_of_app. right. by left.
Qed.

(** In a process that runs, letting the requests in flight go on, one
    after the other, ends them all. *)
Lemma drain (n : nat) (s : state) :
  coherent s →
  running s = true →
  size (tasks s) = n →
  ∃ ms s',
    Forall is_resume ms
    ∧ exec (routes (main env)) ms s = Some s'
    ∧ tasks s' = ∅
    ∧ (∃ h, history s' = history s ++ h)
    ∧ (cache_accepts (world_of s) = true →
       ∀ r, is_Some (tasks s !! r) → r ∈ (sends (history s')).*1).
Proof.
  revert s. induction n as [| n IH]; intros s Hc Hrun Hsize.
  { apply map_size_empty_inv in Hsize. exists [], s.
    repeat split; [done | done | by exists []; rewrite app_nil_r |].
    intros _ r [t Ht]. by rewrite Hsize, lookup_empty in Ht. }
  destruct (map_choose (tasks s)) as (r & [body res] & Hr).
  { intros Hempty. by rewrite Hempty, map_size_empty in Hsize. }
  assert (Hless : size (delete r (tasks s)) = n).
  { rewrite map_size_delete, Hr. lia. }
  destruct (coh_tasks s Hc r _ Hr) as (_ & _ & Hres & Hcase).
  cbn [task_body task_res] in Hres, Hcase.
  destruct Hcase as [[-> _] | (v & -> & _)].
  - destruct (cache_accepts (world_of s)) eqn:Hup.
    + pose proof (resume_waiting_accepted r res s Hrun Hr Hup) as Hstep1.
      pose proof (coherent_incremented r res true s Hc Hr) as Hc1.
      set (v := (store_incr "visits" (world_of s)).1) in *.
      set (s1 := State true _ _ _) in *.
      assert (Hr1 : tasks s1 !! r = Some (Task (replying v) res))
        by apply lookup_insert_eq.
      pose proof (resume_replying r v res s1 eq_refl Hr1 Hres) as Hstep2.
      pose proof (coherent_sent r v res true s1 Hc1 Hr1) as Hc2.
      set (s2 := State true (world_of s1) (delete r (tasks s1)) _) in *.
      assert (Ht2 : tasks s2 = delete r (tasks s))
        by apply delete_insert_eq.
      destruct (IH s2 Hc2 eq_refl)
        as (ms & s' & Hres' & Hexec & Hidle & [h Hh] & Hans).
      { by rewrite Ht2. }
      exists (Resume r :: Resume r :: ms), s'. repeat split.
      * by repeat constructor.
      * cbn [exec]. by rewrite Hstep1, Hstep2.
      * done.
      * exists ([(r, Incremented "visits" v); (r, Sent (visits_body v))] ++ h).
        rewrite Hh. cbn [history s2 s1]. by rewrite <- !app_assoc.
      * intros _ r' Hr'. destruct (decide (r' = r)) as [-> | Hne].
        -- rewrite Hh. apply sends_ids_app, sends_ids_sent.
        -- apply Hans; [done |]. rewrite Ht2. by rewrite lookup_delete_ne.
    + pose proof (resume_waiting_refused r res s Hrun Hr Hup) as Hstep1.
      pose proof (coherent_failed r res true s Hc Hr) as Hc1.
      set (s1 := State true _ _ _) in *.
      destruct (IH s1 Hc1 eq_refl Hless)
        as (ms & s' & Hres' & Hexec & Hidle & [h Hh] & _).
      exists (Resume r :: ms), s'. repeat split.
      * by constructor.
      * cbn [exec]. by rewrite Hstep1.
      * done.
      * exists ([(r, Failed CommandRefused)] ++ h).
        rewrite Hh. cbn [history s1]. by rewrite <- app_assoc.
      * intros Habs. discriminate Habs.
  - pose proof (resume_replying r v res s Hrun Hr Hres) as Hstep1.
    pose proof (coherent_sent r v res true s Hc Hr) as Hc1.
    set (s1 := State true _ _ _) in *.
    destruct (IH s1 Hc1 eq_refl Hless)
      as (ms & s' & Hres' & Hexec & Hidle & [h Hh] & Hans).
    exists (Resume r :: ms), s'. repeat split.
    + by constructor.
    + cbn [exec]. by rewrite Hstep1.
    + done.
    + exists ([(r, Sent (visits_body v))] ++ h).
      rewrite Hh. cbn [history s1]. by rewrite <- app_assoc.
    + intros Hup r' Hr'. destruct (decide (r' = r)) as [-> | Hne].
      * rewrite Hh. apply sends_ids_app, sends_ids_sent.
      * apply Hans; [done |]. cbn [tasks s1]. by rewrite lookup_delete_ne.
Qed.

End Progress.

(** X10: at any point of any execution where the process is still
    alive (no connection was lost), the requests in flight can all be
    brought to their end just by letting them go on, in some order and
    without any new arrival: no request waits for another one.  When
    the cache accepts commands at that point, each of them gets its
    response. *)
Theorem in_flight_can_finish (env : gmap string string) (ms : list move)
    (s : state) :
  exec (routes (main env)) ms init = Some s →
  running s = true →
  ∃ ms' s',
    Forall is_resume ms'
    ∧ exec (routes (main env)) ms' s = Some s'
    ∧ tasks s' = ∅
    ∧ (cache_accepts (world_of s) = true →
       ∀ r, is_Some (tasks s !! r) → r ∈ (sends (history s')).*1).
Proof.
  intros Hexec Hrun.
  pose proof (coherent_exec env ms init s coherent_init Hexec) as Hc.
  destruct (drain env (size (tasks s)) s Hc Hrun eq_refl)
    as (ms' & s' & Hres & Hexec' & Hidle & _ & Hans).
  by exists ms', s'.
Qed.

Lemma in_flight_can_finish_witness :
  ∃ s, exec (routes (main ∅)) midway init = Some s
       ∧ ∃ ms' s', Forall is_resume ms'
                   ∧ exec (routes (main ∅)) ms' s = Some s'
                   ∧ tasks s' = ∅.
Proof.
  assert (Hsome : (running <$> exec (routes (main ∅)) midway init)
                  = Some true) by (vm_compute; reflexivity).
  destruct (exec (routes (main ∅)) midway init) as [s |] eqn:Hexec;
    [| discriminate Hsome].
  exists s. split; [reflexivity |]. injection Hsome as Hrun.
  destruct (in_flight_can_finish ∅ midway s Hexec Hrun)
    as (ms' & s' & Hres & Hexec' & Hidle & _).
  by exists ms', s'.
Defined.

(** X11: what a request is answered depends on the stores only
    through the value of the key [visits] and through the cache
    accepting or refusing commands: other keys, the logs and the
    relational store do not enter into it. *)
Theorem answer_reads_visits_only (env : gmap string string) (req : request)
    (w w' : world) :
  cache_accepts w = cache_accepts w' →
  keyspace w !! "visits" = keyspace w' !! "visits" →
  (serve (routes (main env)) req w).1 = (serve (routes (main env)) req w').1.
Proof.
  intros Hup Hkey. destruct (counted req) eqn:Hreq.
  - destruct (cache_accepts w) eqn:Hw; symmetry in Hup.
    + rewrite !serve_counted_accepted by done. cbn. by rewrite Hkey.
    + by rewrite !serve_counted_refused.
  - by rewrite !serve_not_counted.
Qed.

Lemma answer_reads_visits_only_witness :
  (serve (routes (main ∅)) get_root
     (with_keyspace {[ "counter" := 41 ]} fresh_world)).1
  = ok_answer 1.
Proof.
  refine (eq_trans
    (answer_reads_visits_only ∅ get_root
       (with_keyspace {[ "counter" := 41 ]} fresh_world) fresh_world _ _) _).
  - reflexivity.
  - vm_compute; reflexivity.
  - reflexivity.
Defined.
